(** * The PE import-directory parser of saferwall, embedded in Rocq

    The Go package [pe] walks the import descriptors of a Portable
    Executable, reads the two thunk tables of every descriptor and
    resolves their entries to imported functions.  This development
    embeds the parser (constants, [getImportTable32/64],
    [parseImports32/64], [parseImportDirectory]) and the message handler
    of the orchestrator service ([HandleMessage]), and states their
    properties against the embedding.

    Conventions of the embedding:
    - a [uint32] / [uint64] is a [Z] with the wrap-around written out
      ([wrap32], [wrap64]);
    - the file buffer [pe.data] is a [list byte];
    - a Go call ends in a value, an [error], a run-time panic (slice or
      index out of range) or, for the unbounded [for] loops, does not end
      within the given number of iterations;
    - the helpers of the package that are not among the sources
      ([getOffsetFromRva], [getData], [getStringAtRVA],
      [IsValidFunctionName], [IsValidDosFilename]) are the operations of
      the class [Container];
    - the services the handler calls are the answers of a [World], and
      its calls are recorded in a trace. *)

From Stdlib Require Import ZArith List String Ascii Bool Lia.
From Stdlib Require Import Init.Byte.
From stdpp Require Import base decidable gmap.
Import ListNotations.

#[local] Open Scope Z_scope.

(** ** Machine integers *)

Definition wrap32 (x : Z) : Z := x mod 2 ^ 32.
Definition wrap64 (x : Z) : Z := x mod 2 ^ 64.

(** ** Constants of the package *)

Definition imageOrdinalFlag32 : Z := 0x80000000.
Definition imageOrdinalFlag64 : Z := 0x8000000000000000.
Definition maxRepeatedAddresses : Z := 16.
Definition maxAddressSpread : Z := 0x8000000.
Definition addressMask32 : Z := 0x7fffffff.
Definition addressMask64 : Z := 0x7fffffffffffffff.

(** ** Results of a call *)

Inductive error : Type :=
| ErrEOF                   (* io.EOF, from binary.Read on an empty reader *)
| ErrUnexpectedEOF         (* io.ErrUnexpectedEOF, from a short reader *)
| ErrBogusData             (* "bogus data found in imports" *)
| ErrAddressSpread         (* "data addresses too spread out" *)
| ErrInvalidData (rva : Z) (* "Error parsing the import table. Invalid data at RVA: 0x%x" *)
| ErrBeyond                (* "beyond" *)
| ErrDamaged               (* "Damaged Import Table information. ILT and/or IAT appear to be broken" *)
| ErrNoOrdinalNoName       (* "Must have either an ordinal or a name in an import" *)
| ErrTooManyInvalid        (* "Too many invalid names, aborting parsing" *)
| ErrGetData.              (* the error of pe.getData *)

Inductive outcome (A : Type) : Type :=
| Ok (a : A)       (* the call returns a value and a nil error *)
| Err (e : error)  (* the call returns a non-nil error *)
| Panic            (* the Go run time panics: slice or index out of range *)
| OutOfFuel.       (* the loop is still running after the allotted iterations *)

Arguments Ok {A} a.
Arguments Err {A} e.
Arguments Panic {A}.
Arguments OutOfFuel {A}.

#[global] Instance outcome_ret : MRet outcome := fun A a => Ok a.

#[global] Instance outcome_bind : MBind outcome := fun A B k m =>
  match m with
  | Ok a => k a
  | Err e => Err e
  | Panic => Panic
  | OutOfFuel => OutOfFuel
  end.


(** ** Bytes, slices and [encoding/binary] *)

Definition byteZ (b : byte) : Z := Z.of_N (Byte.to_N b).

Definition zByte (z : Z) : byte :=
  match Byte.of_N (Z.to_N (z mod 256)) with
  | Some b => b
  | None => x00
  end.

(** Little-endian value of a byte string. *)
Fixpoint leUint (bs : list byte) : Z :=
  match bs with
  | [] => 0
  | b :: bs' => byteZ b + 256 * leUint bs'
  end.

(** The [n] little-endian bytes of a value. *)
Fixpoint leBytes (n : nat) (z : Z) : list byte :=
  match n with
  | O => []
  | S n' => zByte z :: leBytes n' (z / 256)
  end.

(** The slice expression [a[lo:hi]] on a slice whose capacity is its
    length: it panics ([None]) unless [0 <= lo <= hi <= len(a)]. *)
Definition goSlice (a : list byte) (lo hi : Z) : option (list byte) :=
  if (0 <=? lo) && (lo <=? hi) && (hi <=? Z.of_nat (length a))
  then Some (firstn (Z.to_nat (hi - lo)) (skipn (Z.to_nat lo) a))
  else None.

(** [binary.Read(bytes.NewReader(buf), binary.LittleEndian, &v)] for a
    value of [n] bytes: [io.EOF] on an empty reader, [io.ErrUnexpectedEOF]
    on a short one, the first [n] bytes otherwise. *)
Definition binaryRead (n : nat) (buf : list byte) : error + list byte :=
  if (length buf <? n)%nat
  then inl (match buf with [] => ErrEOF | _ => ErrUnexpectedEOF end)
  else inr (firstn n buf).

(** ** The structures of the package *)

Record ImageImportDescriptor : Type := {
  OriginalFirstThunk : Z;
  TimeDateStamp : Z;
  ForwarderChain : Z;
  Name : Z;
  FirstThunk : Z
}.

Record ImportFunction : Type := {
  fnName : string;
  Hint : Z;
  Offset : Z;
  ByOrdinal : bool;
  Ordinal : Z;
  Address : Z;
  Bound : Z
}.

Record Import : Type := {
  impOffset : Z;
  impName : string;
  Functions : list ImportFunction;
  Descriptor : ImageImportDescriptor
}.

(** The part of [File] the import parser reads: the buffer, the bitness
    and [OptionalHeader.ImageBase].  [pe.Imports], the one field it
    writes, is threaded through [parseImportDirectory] as a state. *)
Record File : Type := {
  data : list byte;
  Is64 : bool;
  ImageBase : Z
}.

(** The collaborators of the parser that live in other files of the
    package. *)
Class Container : Type := {
  getOffsetFromRva : File -> Z -> Z;
  getData : File -> Z -> Z -> option (list byte);
  getStringAtRVA : File -> Z -> string;
  IsValidFunctionName : string -> bool;
  IsValidDosFilename : string -> bool
}.

(** The helper [Max] of the package, on [uint32]: the larger argument. *)
Definition Max (x y : Z) : Z := if x <? y then y else x.

(** The thunk width of the two variants of the reader and resolver. *)
Inductive bitness : Type := PE32 | PE64.

Definition thunkSize (w : bitness) : Z :=
  match w with PE32 => 4 | PE64 => 8 end.

Definition imageOrdinalFlag (w : bitness) : Z :=
  match w with PE32 => imageOrdinalFlag32 | PE64 => imageOrdinalFlag64 end.

Definition addressMask (w : bitness) : Z :=
  match w with PE32 => addressMask32 | PE64 => addressMask64 end.

Definition wrapThunk (w : bitness) (x : Z) : Z :=
  match w with PE32 => wrap32 x | PE64 => wrap64 x end.

(** ** The thunk table reader: [getImportTable32], [getImportTable64] *)

(** The variables of the loop.  [minAddressOfData] and
    [maxAddressOfData] are assigned once, before the loop, and are
    constants of it. *)
Record tableState : Type := {
  curRVA : Z;
  repeatedAddress : Z;
  addressesOfData : gset Z;
  thunkTable : gmap Z Z;
  retVal : list Z
}.

Definition minAddressOfData : Z := wrap32 (Z.lnot 0).
Definition maxAddressOfData : Z := 0.

(** What one pass through the body of a [for] loop does. *)
Inductive flow (S A : Type) : Type :=
| Next (s : S)          (* the body reaches its end, or [continue] *)
| Done (r : outcome A). (* [break] or [return] *)

Arguments Next {S A} s.
Arguments Done {S A} r.

Section Parser.

Context {C : Container}.

Definition offsetOf (pe : File) (rva : Z) : Z := wrap32 (getOffsetFromRva pe rva).

(** The read in the loop: the slice of [size] bytes at the file offset
    of [rva], then [binary.Read] of a thunk. *)
Definition readThunk (w : bitness) (pe : File) (rva : Z) : outcome Z :=
  let size := thunkSize w in
  let offset := offsetOf pe rva in
  match goSlice (data pe) offset (wrap32 (offset + size)) with
  | None => Panic
  | Some buf =>
    match binaryRead (Z.to_nat size) buf with
    | inl _ => Err (ErrInvalidData rva)
    | inr bs => Ok (leUint bs)
    end
  end.

Definition pushThunk (w : bitness) (st : tableState) (thunk repeated : Z)
    (seen : gset Z) : tableState :=
  {| curRVA := wrap32 (curRVA st + thunkSize w);
     repeatedAddress := repeated;
     addressesOfData := seen;
     thunkTable := <[curRVA st := thunk]> (thunkTable st);
     retVal := retVal st ++ [thunk] |}.

(** The body of the loop of [getImportTable32] ([w = PE32]) and of
    [getImportTable64] ([w = PE64]). *)
Definition tableBody (w : bitness) (pe : File) (startRVA maxLen : Z)
    (st : tableState) : flow tableState (list Z) :=
  let rva := curRVA st in
  if wrap32 (startRVA + maxLen) <=? rva then Done (Ok (retVal st))
  else if maxAddressSpread <=? repeatedAddress st then Done (Err ErrBogusData)
  else if maxAddressSpread <? wrap32 (maxAddressOfData - minAddressOfData)
  then Done (Err ErrAddressSpread)
  else
    match readThunk w pe rva with
    | Ok thunk =>
      if thunk =? 0 then Done (Ok (retVal st))
      else if (startRVA <=? thunk) && (thunk <=? rva) then Done (Ok (retVal st))
      else if 0 <? Z.land thunk (imageOrdinalFlag w) then
        if 0xffff <? Z.land thunk 0x7fffffff then Done (Err ErrBeyond)
        else Next (pushThunk w st thunk (repeatedAddress st) (addressesOfData st))
      else if bool_decide (thunk ∈ addressesOfData st) then
        Next (pushThunk w st thunk (wrap32 (repeatedAddress st + 1)) (addressesOfData st))
      else
        Next (pushThunk w st thunk (repeatedAddress st) ({[thunk]} ∪ addressesOfData st))
    | Err e => Done (Err e)
    | Panic => Done Panic
    | OutOfFuel => Done OutOfFuel
    end.

Fixpoint tableLoop (w : bitness) (pe : File) (startRVA maxLen : Z)
    (fuel : nat) (st : tableState) : outcome (list Z) :=
  match fuel with
  | O => OutOfFuel
  | S fuel' =>
    match tableBody w pe startRVA maxLen st with
    | Next st' => tableLoop w pe startRVA maxLen fuel' st'
    | Done r => r
    end
  end.

Definition tableInit (rva : Z) : tableState :=
  {| curRVA := rva; repeatedAddress := 0; addressesOfData := ∅;
     thunkTable := ∅; retVal := [] |}.

Definition getImportTable (w : bitness) (fuel : nat) (pe : File)
    (rva maxLen : Z) : outcome (list Z) :=
  tableLoop w pe rva maxLen fuel (tableInit rva).

Definition getImportTable32 := getImportTable PE32.
Definition getImportTable64 := getImportTable PE64.

(** ** The import entry resolver: [parseImports32], [parseImports64] *)

Definition invalidName : string := "*invalid*".

Definition emptyImportFunction : ImportFunction :=
  {| fnName := EmptyString; Hint := 0; Offset := 0; ByOrdinal := false;
     Ordinal := 0; Address := 0; Bound := 0 |}.

(** [binary.LittleEndian.Uint16(b)]: it indexes [b[1]] first. *)
Definition leUint16 (b : list byte) : outcome Z :=
  match b with
  | b0 :: b1 :: _ => Ok (byteZ b0 + 256 * byteZ b1)
  | _ => Panic
  end.

(** An index expression [a[i]]. *)
Definition index (a : list Z) (i : Z) : outcome Z :=
  match a !! Z.to_nat i with
  | Some x => Ok x
  | None => Panic
  end.

(** The variables of the loop over the table of record. *)
Record resolveState : Type := {
  idx : Z;
  numInvalid : Z;
  importedFunctions : list ImportFunction
}.

(** The first part of the loop body: the import decoded from
    [table[idx]], before its address fields are set. *)
Definition decodeThunk (w : bitness) (pe : File) (thunk : Z) : outcome ImportFunction :=
  if 0 <? thunk then
    if 0 <? Z.land thunk (imageOrdinalFlag w) then
      Ok {| fnName := EmptyString; Hint := 0; Offset := 0; ByOrdinal := true;
            Ordinal := Z.land (wrap32 thunk) 0xffff; Address := 0; Bound := 0 |}
    else
      match getData pe (wrap32 (Z.land thunk (addressMask w))) 2 with
      | None => Err ErrGetData
      | Some bytes =>
        hint ← leUint16 bytes;
        let name := getStringAtRVA pe (wrap32 (wrapThunk w (thunk + 2))) in
        Ok {| fnName := if IsValidFunctionName name then name else invalidName;
              Hint := hint; Offset := wrap32 thunk; ByOrdinal := false;
              Ordinal := 0; Address := 0; Bound := 0 |}
      end
  else Ok emptyImportFunction.

(** The second part: [imp.Address] and, when both tables are there and
    differ at [idx], [imp.Bound]. *)
Definition setAddresses (w : bitness) (pe : File) (importDesc : ImageImportDescriptor)
    (ilt iat : list Z) (i : Z) (imp : ImportFunction) : outcome ImportFunction :=
  let address := wrap32 (FirstThunk importDesc + ImageBase pe + i * thunkSize w) in
  if (0 <? Z.of_nat (length iat)) && (0 <? Z.of_nat (length ilt)) then
    l ← index ilt i;
    a ← index iat i;
    Ok {| fnName := fnName imp; Hint := Hint imp; Offset := Offset imp;
          ByOrdinal := ByOrdinal imp; Ordinal := Ordinal imp; Address := address;
          Bound := if l =? a then Bound imp else wrap32 a |}
  else
    Ok {| fnName := fnName imp; Hint := Hint imp; Offset := Offset imp;
          ByOrdinal := ByOrdinal imp; Ordinal := Ordinal imp; Address := address;
          Bound := Bound imp |}.

(** The import built from [table[i]], up to the checks on it. *)
Definition resolveEntry (w : bitness) (pe : File) (importDesc : ImageImportDescriptor)
    (ilt iat table : list Z) (i : Z) : outcome ImportFunction :=
  thunk ← index table i;
  imp ← decodeThunk w pe thunk;
  setAddresses w pe importDesc ilt iat i imp.

Definition resolveBody (w : bitness) (pe : File) (importDesc : ImageImportDescriptor)
    (ilt iat table : list Z) (st : resolveState)
    : flow resolveState (list ImportFunction) :=
  match resolveEntry w pe importDesc ilt iat table (idx st) with
  | Ok imp =>
    let hasName := negb (String.eqb (fnName imp) EmptyString) in
    if (Ordinal imp =? 0) && negb hasName then Done (Err ErrNoOrdinalNoName)
    else if String.eqb (fnName imp) invalidName then
      if (1000 <? numInvalid st) && (numInvalid st =? idx st)
      then Done (Err ErrTooManyInvalid)
      else Next {| idx := wrap32 (idx st + 1);
                   numInvalid := wrap32 (numInvalid st + 1);
                   importedFunctions := importedFunctions st |}
    else if (0 <? Ordinal imp) || hasName then
      Next {| idx := wrap32 (idx st + 1);
              numInvalid := numInvalid st;
              importedFunctions := importedFunctions st ++ [imp] |}
    else
      Next {| idx := wrap32 (idx st + 1);
              numInvalid := numInvalid st;
              importedFunctions := importedFunctions st |}
  | Err e => Done (Err e)
  | Panic => Done Panic
  | OutOfFuel => Done OutOfFuel
  end.

(** The loop [for idx := 0; idx < len(table); idx++]: [n] counts the
    passes that are left. *)
Fixpoint resolveLoop (w : bitness) (pe : File) (importDesc : ImageImportDescriptor)
    (ilt iat table : list Z) (n : nat) (st : resolveState)
    : outcome (list ImportFunction) :=
  match n with
  | O => Ok (importedFunctions st)
  | S n' =>
    match resolveBody w pe importDesc ilt iat table st with
    | Next st' => resolveLoop w pe importDesc ilt iat table n' st'
    | Done r => r
    end
  end.

(** What [parseImports32/64] does once the two tables are read. *)
Definition resolveTables (w : bitness) (pe : File) (importDesc : ImageImportDescriptor)
    (ilt iat : list Z) : outcome (list ImportFunction) :=
  if (length iat =? 0)%nat && (length ilt =? 0)%nat then Err ErrDamaged
  else
    match (if (0 <? length ilt)%nat then Some ilt
           else if (0 <? length iat)%nat then Some iat else None) with
    | None => Ok []
    | Some table =>
      resolveLoop w pe importDesc ilt iat table
        (Z.to_nat (wrap32 (Z.of_nat (length table))))
        {| idx := 0; numInvalid := 0; importedFunctions := [] |}
    end.

Definition parseImports (w : bitness) (fuel : nat) (pe : File)
    (importDesc : ImageImportDescriptor) (maxLen : Z)
    : outcome (list ImportFunction) :=
  ilt ← getImportTable w fuel pe (OriginalFirstThunk importDesc) maxLen;
  iat ← getImportTable w fuel pe (FirstThunk importDesc) maxLen;
  resolveTables w pe importDesc ilt iat.

Definition parseImports32 := parseImports PE32.
Definition parseImports64 := parseImports PE64.

(** ** The directory walker: [parseImportDirectory] *)

Definition zeroDescriptor : ImageImportDescriptor :=
  {| OriginalFirstThunk := 0; TimeDateStamp := 0; ForwarderChain := 0;
     Name := 0; FirstThunk := 0 |}.

Definition isZeroDescriptor (d : ImageImportDescriptor) : bool :=
  (OriginalFirstThunk d =? 0) && (TimeDateStamp d =? 0) &&
  (ForwarderChain d =? 0) && (Name d =? 0) && (FirstThunk d =? 0).

(** [binary.Size(importDesc)]. *)
Definition descriptorSize : Z := 20.

Definition decodeDescriptor (bs : list byte) : ImageImportDescriptor :=
  {| OriginalFirstThunk := leUint (firstn 4 bs);
     TimeDateStamp := leUint (firstn 4 (skipn 4 bs));
     ForwarderChain := leUint (firstn 4 (skipn 8 bs));
     Name := leUint (firstn 4 (skipn 12 bs));
     FirstThunk := leUint (firstn 4 (skipn 16 bs)) |}.

(** The read at the head of the loop: the slice of [size] bytes at the
    file offset of [rva], then [binary.Read] of a descriptor. *)
Definition readDescriptor (pe : File) (rva size : Z) : outcome ImageImportDescriptor :=
  let fileOffset := offsetOf pe rva in
  match goSlice (data pe) fileOffset (wrap32 (fileOffset + size)) with
  | None => Panic
  | Some buf =>
    match binaryRead (Z.to_nat descriptorSize) buf with
    | inl e => Err e
    | inr bs => Ok (decodeDescriptor bs)
    end
  end.

(** The bound handed to both thunk table reads of a descriptor; [rva] is
    the cursor after the descriptor. *)
Definition tableMaxLen (pe : File) (fileOffset rva : Z)
    (importDesc : ImageImportDescriptor) : Z :=
  if (OriginalFirstThunk importDesc <? rva) || (FirstThunk importDesc <? rva)
  then Max (wrap32 (rva - OriginalFirstThunk importDesc))
           (wrap32 (rva - FirstThunk importDesc))
  else wrap32 (wrap32 (Z.of_nat (length (data pe))) - fileOffset).

(** The variables of the walk: the cursor and [pe.Imports]. *)
Record walkState : Type := {
  cursor : Z;
  Imports : list Import
}.

Definition walkBody (fuel : nat) (pe : File) (size : Z) (st : walkState)
    : flow walkState unit :=
  let fileOffset := offsetOf pe (cursor st) in
  match readDescriptor pe (cursor st) size with
  | Ok importDesc =>
    if isZeroDescriptor importDesc then Done (Ok tt)
    else
      let rva := wrap32 (cursor st + descriptorSize) in
      let maxLen := tableMaxLen pe fileOffset rva importDesc in
      match (if Is64 pe then parseImports64 fuel pe importDesc maxLen
             else parseImports32 fuel pe importDesc maxLen) with
      | Ok fns =>
        let dllName := getStringAtRVA pe (Name importDesc) in
        if IsValidDosFilename dllName then
          Next {| cursor := rva;
                  Imports := Imports st ++
                    [{| impOffset := fileOffset; impName := dllName;
                        Functions := fns; Descriptor := importDesc |}] |}
        else Next {| cursor := rva; Imports := Imports st |}
      | Err e => Done (Err e)
      | Panic => Done Panic
      | OutOfFuel => Done OutOfFuel
      end
  | Err e => Done (Err e)
  | Panic => Done Panic
  | OutOfFuel => Done OutOfFuel
  end.

(** The walk returns [pe.Imports] as the call leaves it, and its error. *)
Fixpoint walkLoop (fuel : nat) (pe : File) (size : Z) (n : nat) (st : walkState)
    : list Import * outcome unit :=
  match n with
  | O => (Imports st, OutOfFuel)
  | S n' =>
    match walkBody fuel pe size st with
    | Next st' => walkLoop fuel pe size n' st'
    | Done r => (Imports st, r)
    end
  end.

Definition parseImportDirectory (fuel : nat) (pe : File) (imports : list Import)
    (rva size : Z) : list Import * outcome unit :=
  walkLoop fuel pe size fuel {| cursor := rva; Imports := imports |}.

End Parser.

(** ** Containers used to run the parser *)

Fixpoint cstring (n : nat) (bs : list byte) : string :=
  match n, bs with
  | S n', b :: bs' =>
    if byteZ b =? 0 then EmptyString
    else String (ascii_of_byte b) (cstring n' bs')
  | _, _ => EmptyString
  end.

Fixpoint allPrintable (s : string) : bool :=
  match s with
  | EmptyString => true
  | String c s' =>
    (32 <? Z.of_N (N_of_ascii c)) && (Z.of_N (N_of_ascii c) <? 127) && allPrintable s'
  end.

Definition validName (s : string) : bool :=
  negb (String.eqb s EmptyString) && allPrintable s.

(** Modelled from the spec: the Address Resolver and the two name checks
    are in files of the package that are not among the sources.  [flat]
    is the resolver of an image without sections, where an RVA is its own
    file offset: [read_bytes] fails out of bounds, [read_c_string_at_rva]
    stops at the NUL byte or after 256 characters, and a name is valid
    when it is non-empty and printable. *)
Definition flat : Container := {|
  getOffsetFromRva := fun _ rva => rva;
  getData := fun pe rva n => goSlice (data pe) rva (rva + n);
  getStringAtRVA := fun pe rva => cstring 256 (skipn (Z.to_nat rva) (data pe));
  IsValidFunctionName := validName;
  IsValidDosFilename := validName
|}.

(** Byte strings of test images. *)
Definition words32 (l : list Z) : list byte := flat_map (leBytes 4) l.
Definition words64 (l : list Z) : list byte := flat_map (leBytes 8) l.
Definition zeros (n : nat) : list byte := repeat x00 n.
Definition ascii (s : string) : list byte := map byte_of_ascii (list_ascii_of_string s).

Definition image32 (bs : list byte) : File :=
  {| data := bs; Is64 := false; ImageBase := 0x400000 |}.
Definition image64 (bs : list byte) : File :=
  {| data := bs; Is64 := true; ImageBase := 0x400000 |}.

(** A lookup table of 20 entries that all hold the data address 0x2000,
    and its zero terminator. *)
Definition floodTable32 : File := image32 (words32 (repeat 0x2000 20 ++ [0])).
Definition floodTable64 : File := image64 (words64 (repeat 0x2000 20 ++ [0])).

(** The same with 16 entries: 15 repeats of the first address. *)
Definition repeat15Table32 : File := image32 (words32 (repeat 0x2000 16 ++ [0])).

(** Two data addresses 256 MiB apart, and the zero terminator. *)
Definition spreadTable32 : File := image32 (words32 [0x10000000; 0x20000000; 0]).
Definition spreadTable64 : File := image64 (words64 [0x10000000; 0x20000000; 0]).

(** One ordinal entry and the terminator.  The descriptor [selfDescriptor]
    names the table at RVA 0 as lookup and as address table. *)
Definition ordinalTable32 (thunk : Z) : File := image32 (words32 [thunk; 0]).
Definition ordinalTable64 (thunk : Z) : File := image64 (words64 [thunk; 0]).

Definition selfDescriptor : ImageImportDescriptor :=
  {| OriginalFirstThunk := 0; TimeDateStamp := 0; ForwarderChain := 0;
     Name := 0; FirstThunk := 0 |}.

Definition ordinalImport (ordinal address : Z) : ImportFunction :=
  {| fnName := EmptyString; Hint := 0; Offset := 0; ByOrdinal := true;
     Ordinal := ordinal; Address := address; Bound := 0 |}.

(** A buffer of ten bytes, too short for a descriptor. *)
Definition shortImage : File := image32 (zeros 10).

(** A descriptor whose two tables are at RVA 0x1000, in a file of 40
    bytes. *)
Definition strayTableImage : File :=
  image32 (words32 [0x1000; 0; 0; 0; 0x1000] ++ zeros 20).

(** The slice [pe.data[off : off+size]] is within the file. *)
Definition inBounds (pe : File) (off size : Z) : Prop :=
  off <= wrap32 (off + size) <= Z.of_nat (length (data pe)).

(** A directory that is one all-zero descriptor. *)
Definition nullDirectory : File := image32 (zeros 20).

(** A lookup table of two ordinals at RVA 0 and an address table of one
    at RVA 12 (RVA 24 at 64 bits), each with its terminator. *)
Definition unevenTables32 : File :=
  image32 (words32 [0x80000001; 0x80000002; 0; 0x80000001; 0]).
Definition unevenTables64 : File :=
  image64 (words64 [0x8000000000000001; 0x8000000000000002; 0;
                    0x8000000000000001; 0]).

Definition unevenDescriptor (addressTable : Z) : ImageImportDescriptor :=
  {| OriginalFirstThunk := 0; TimeDateStamp := 0; ForwarderChain := 0;
     Name := 0; FirstThunk := addressTable |}.


(** Two modules and the null descriptor; each module imports one
    function by ordinal.  The descriptors are at 0x00, 0x14 and 0x28, the
    tables at 0x40 and 0x48, the names at 0x50 and 0x58. *)
Definition twoModules : File :=
  image32 (words32 [0x40; 0; 0; 0x50; 0x40] ++
           words32 [0x48; 0; 0; 0x58; 0x48] ++
           zeros 20 ++ zeros 4 ++
           words32 [0x80000001; 0] ++
           words32 [0x80000002; 0] ++
           ascii "a.dll" ++ zeros 3 ++
           ascii "b.dll" ++ zeros 3).


Definition moduleB : Import :=
  {| impOffset := 0x14; impName := "b.dll";
     Functions := [ordinalImport 2 0x400048];
     Descriptor := {| OriginalFirstThunk := 0x48; TimeDateStamp := 0;
                      ForwarderChain := 0; Name := 0x58; FirstThunk := 0x48 |} |}.

(** The cursor of the walk after [k] descriptors. *)
Definition nthCursor (rva : Z) (k : nat) : Z :=
  Nat.iter k (fun c => wrap32 (c + descriptorSize)) rva.

(** [pe.Imports] after a descriptor whose functions are [fns]. *)
Definition addModule {C : Container} (pe : File) (fileOffset : Z)
    (importDesc : ImageImportDescriptor) (fns : list ImportFunction)
    (imports : list Import) : list Import :=
  if IsValidDosFilename (getStringAtRVA pe (Name importDesc))
  then imports ++ [{| impOffset := fileOffset;
                      impName := getStringAtRVA pe (Name importDesc);
                      Functions := fns; Descriptor := importDesc |}]
  else imports.

(** An import that carries the sentinel name. *)
Definition isInvalid (imp : ImportFunction) : bool :=
  String.eqb (fnName imp) invalidName.

(** The decisions of the resolver loop on the imports built from the
    entries of the table, from index [i] on: an import with the sentinel
    name is dropped, or ends the loop when more than 1000 imports were
    dropped and none kept; any other import is kept. *)
Fixpoint skipInvalid (imps : list ImportFunction) (i dropped : Z)
    (kept : list ImportFunction) : outcome (list ImportFunction) :=
  match imps with
  | [] => Ok kept
  | imp :: imps' =>
    if isInvalid imp then
      if (1000 <? dropped) && (dropped =? i) then Err ErrTooManyInvalid
      else skipInvalid imps' (i + 1) (dropped + 1) kept
    else skipInvalid imps' (i + 1) dropped (kept ++ [imp])
  end.

(** A table of two names, an unprintable name between them, and an
    ordinal: the table is at RVA 0, the hint and name structures at
    0x20, 0x28 and 0x30. *)
Definition interleaved : File :=
  image32 (words32 [0x20; 0x28; 0x80000005; 0x30; 0] ++ zeros 12 ++
           leBytes 2 1 ++ ascii "ab" ++ zeros 4 ++
           leBytes 2 2 ++ [x01] ++ zeros 5 ++
           leBytes 2 3 ++ ascii "cd" ++ zeros 4).

Definition namedImport (name : string) (hint offset address : Z) : ImportFunction :=
  {| fnName := name; Hint := hint; Offset := offset; ByOrdinal := false;
     Ordinal := 0; Address := address; Bound := 0 |}.


(** A table of [n] entries at RVA 0 and its terminator; entry [i] names
    the structure at RVA [0x1000 + i], where the file holds zero bytes:
    every name is empty, hence not valid. *)
Definition invalidTable (n : nat) : list Z :=
  map (fun i => 0x1000 + Z.of_nat i) (seq 0 n).

Definition invalidNames (n : nat) : File :=
  image32 (words32 (invalidTable n ++ [0]) ++ zeros (0x1000 - 4 * (n + 1) + n + 8)).

(** The imports the resolver builds from the entries of [invalidTable]. *)
Definition invalidImports (n : nat) : list ImportFunction :=
  map (fun i => {| fnName := invalidName; Hint := 0;
                   Offset := 0x1000 + Z.of_nat i; ByOrdinal := false;
                   Ordinal := 0; Address := 0x400000 + Z.of_nat i * 4;
                   Bound := 0 |}) (seq 0 n).

(** A table at RVA 8 whose second entry, 8, points at the table. *)
Definition selfReferential : File :=
  image32 (words32 [0; 0; 0x2000; 0x8; 0x3000; 0]).



(** The RVA of the [i]-th entry of a table that starts at [rva]. *)
Definition nthRVA (w : bitness) (rva : Z) (i : nat) : Z :=
  Nat.iter i (fun c => wrap32 (c + thunkSize w)) rva.

(** The checks of the reader that an entry read at [rva] passes before
    it is collected: it is not the terminator, it does not lie in the
    range of RVAs scanned so far, and with the ordinal flag its low 31
    bits do not exceed 0xFFFF. *)
Definition accepted (w : bitness) (startRVA rva thunk : Z) : Prop :=
  thunk <> 0 /\
  ~ (startRVA <= thunk <= rva) /\
  (0 < Z.land thunk (imageOrdinalFlag w) -> Z.land thunk 0x7fffffff <= 0xffff).

(** The table of record of the resolver: the lookup table unless it is
    empty. *)
Definition tableOfRecord (ilt iat : list Z) : list Z :=
  if (0 <? length ilt)%nat then ilt else iat.

(** The two shapes of an import that the resolver returns: by ordinal,
    with no name, or by name, with a valid name and no ordinal. *)
Definition wellFormed {C : Container} (imp : ImportFunction) : Prop :=
  (ByOrdinal imp = true /\ fnName imp = EmptyString /\
   0 < Ordinal imp <= 0xffff /\ Hint imp = 0 /\ Offset imp = 0) \/
  (ByOrdinal imp = false /\ Ordinal imp = 0 /\
   fnName imp <> EmptyString /\ fnName imp <> invalidName /\
   IsValidFunctionName (fnName imp) = true).

(** ** The orchestrator service: [HandleMessage]

    The handler of the orchestrator consumes a message whose body is the
    SHA-256 of a sample, downloads the sample and publishes the body to
    the topics of the services that scan it.  Its collaborators (the file
    system, the object storage, the publisher, the detection of the file
    type) are the outside [World]: every call is recorded in a trace, and
    the answer of the world to a call may depend on the trace so far.
    The deadline of the download context is not modelled. *)
Module Orchestrator.

(** The lines the handler logs. *)
Inductive logLine : Type :=
| StartProcessing                    (* "start processing" *)
| FailedCreatingFile (e : string)    (* "failed creating file: %v" *)
| FailedDownloadingFile (e : string) (* "failed downloading file: %v" *)
| FailedToPublish (e : string)       (* "failed to publish message: %v" *)
| PublishedTo (topic : string)       (* "published messaged to topic-..." *)
| FailedToDetect (e : string)        (* "failed to detect mimetype: %v" *)
| FileTypeIs (mtype : string).       (* "file type is: %s" *)

Inductive event : Type :=
| Create (path : string)                (* os.Create(filePath) *)
| Download (bucket key path : string)   (* s.storage.Download *)
| Publish (topic body : string)         (* s.pub.Publish *)
| DetectFile (path : string)            (* mimetype.DetectFile(filePath) *)
| Log (line : logLine).

(** The answers of the outside; an error is its message. *)
Record World : Type := {
  joinPath : string -> string -> string;
  create : list event -> string -> option string;
  download : list event -> string -> string -> string -> option string;
  publish : list event -> string -> string -> option string;
  detect : list event -> string -> string + string
}.

(** The fields of the configuration the handler reads:
    [cfg.SharedVolume] and [cfg.Storage.Bucket]. *)
Record Config : Type := {
  SharedVolume : string;
  Bucket : string
}.

(** The [switch] on the file type: the topics of the format. *)
Definition routes (mtype : string) : list string :=
  if String.eqb mtype "application/vnd.microsoft.portable-executable"
  then ["topic-pe"%string; "topic-ml"%string]
  else if String.eqb mtype "elf" then ["topic-elf"%string]
  else if String.eqb mtype "mach-o" then ["topic-mach-o"%string]
  else if String.eqb mtype "pdf" then ["topic-pdf"%string]
  else [].

(** The publications of a case of the [switch]: each one returns its
    error at once, without a log line. *)
Fixpoint publishAll (W : World) (body : string) (topics : list string)
    (tr : list event) : list event * option string :=
  match topics with
  | [] => (tr, None)
  | topic :: topics' =>
    match publish W tr topic body with
    | Some e => (tr ++ [Publish topic body], Some e)
    | None => publishAll W body topics' (tr ++ [Publish topic body])
    end
  end.

(** A publication of the common part, with its log line. *)
Definition publishLogged (W : World) (body topic : string) (tr : list event)
    : list event * option string :=
  match publish W tr topic body with
  | Some e => (tr ++ [Publish topic body; Log (FailedToPublish e)], Some e)
  | None => (tr ++ [Publish topic body; Log (PublishedTo topic)], None)
  end.

Definition blankBody : string := "body is blank re-enqueue message".

(** [HandleMessage]: the trace of the call and the error it returns. *)
Definition HandleMessage (W : World) (cfg : Config) (body : string)
    : list event * option string :=
  if String.eqb body EmptyString then ([], Some blankBody)
  else
    let sha256 := body in
    let tr0 := [Log StartProcessing] in
    let filePath := joinPath W (SharedVolume cfg) sha256 in
    match create W tr0 filePath with
    | Some e => (tr0 ++ [Create filePath; Log (FailedCreatingFile e)], Some e)
    | None =>
      let tr1 := tr0 ++ [Create filePath] in
      match download W tr1 (Bucket cfg) sha256 filePath with
      | Some e =>
        (tr1 ++ [Download (Bucket cfg) sha256 filePath;
                 Log (FailedDownloadingFile e)], Some e)
      | None =>
        let tr2 := tr1 ++ [Download (Bucket cfg) sha256 filePath] in
        match publishLogged W body "topic-multiav" tr2 with
        | (tr3, Some e) => (tr3, Some e)
        | (tr3, None) =>
          match publishLogged W body "topic-meta" tr3 with
          | (tr4, Some e) => (tr4, Some e)
          | (tr4, None) =>
            match detect W tr4 filePath with
            | inl e => (tr4 ++ [DetectFile filePath; Log (FailedToDetect e)], Some e)
            | inr mtype =>
              publishAll W body (routes mtype)
                (tr4 ++ [DetectFile filePath; Log (FileTypeIs mtype)])
            end
          end
        end
      end
    end.


(** The topics a trace publishes to, with the bodies, in order. *)
Definition published (tr : list event) : list (string * string) :=
  flat_map (fun ev => match ev with
                      | Publish topic body => [(topic, body)]
                      | _ => []
                      end) tr.

(** A world where every call succeeds and the sample is a PE file. *)
Definition quietWorld : World := {|
  joinPath := fun dir name => (dir ++ "/" ++ name)%string;
  create := fun _ _ => None;
  download := fun _ _ _ _ => None;
  publish := fun _ _ _ => None;
  detect := fun _ _ => inr "application/vnd.microsoft.portable-executable"%string
|}.

Definition sampleConfig : Config :=
  {| SharedVolume := "/samples"; Bucket := "saferwall" |}.

End Orchestrator.

(** * Properties *)

(** ** Fuel *)

Section Fuel.

Context {C : Container}.

Lemma tableLoop_more_fuel w pe startRVA maxLen fuel k st :
  tableLoop w pe startRVA maxLen fuel st <> OutOfFuel ->
  tableLoop w pe startRVA maxLen (fuel + k) st
  = tableLoop w pe startRVA maxLen fuel st.
Proof.
  revert st. induction fuel as [|fuel IH]; intros st H; simpl in *.
  - congruence.
  - destruct (tableBody w pe startRVA maxLen st); auto.
Qed.

Lemma getImportTable_more_fuel w pe rva maxLen fuel k r :
  getImportTable w fuel pe rva maxLen = r -> r <> OutOfFuel ->
  getImportTable w (fuel + k) pe rva maxLen = r.
Proof.
  unfold getImportTable. intros <- H. now apply tableLoop_more_fuel.
Qed.

End Fuel.

(** ** The repeat counter and the address spread *)

(** C1, the code at the failing input: the table of 20 equal data
    addresses is read to its end and returned whole, at both widths; the
    repeat counter, at 19 by then, is compared with [maxAddressSpread]
    and not with [maxRepeatedAddresses]. *)
Theorem C1_flood_of_20_is_accepted (k : nat) :
  getImportTable32 (C := flat) (21 + k) floodTable32 0 0x1000
    = Ok (repeat 0x2000 20) /\
  getImportTable64 (C := flat) (21 + k) floodTable64 0 0x1000
    = Ok (repeat 0x2000 20).
Proof.
  split; (apply getImportTable_more_fuel; [vm_compute; reflexivity | discriminate]).
Qed.

(** The second half of the sentence holds: 15 repeats and a terminator
    are accepted. *)
Lemma repeat15_is_accepted (k : nat) :
  getImportTable32 (C := flat) (17 + k) repeat15Table32 0 0x1000
    = Ok (repeat 0x2000 16).
Proof.
  apply getImportTable_more_fuel; [vm_compute; reflexivity | discriminate].
Qed.

Section Reader.

Context {C : Container}.

(** The guard on the repeat counter, as the code has it. *)
Lemma tableBody_bogus w pe startRVA maxLen st :
  tableBody w pe startRVA maxLen st = Done (Err ErrBogusData) ->
  maxAddressSpread <= repeatedAddress st.
Proof.
  unfold tableBody.
  destruct (wrap32 (startRVA + maxLen) <=? curRVA st); [discriminate|].
  destruct (maxAddressSpread <=? repeatedAddress st) eqn:E; [lia|].
  destruct (maxAddressSpread <? wrap32 (maxAddressOfData - minAddressOfData));
    [discriminate|].
  destruct (readThunk w pe (curRVA st)) as [thunk|e| |] eqn:R; try discriminate.
  - repeat match goal with |- context [if ?b then _ else _] => destruct b end;
      discriminate.
  - intros [= ->]. unfold readThunk in R.
    destruct (goSlice _ _ _); [|discriminate].
    destruct (binaryRead _ _); discriminate.
Qed.

(** The bounds of the data addresses are never updated, and the guard on
    their difference compares 1 with the ceiling. *)
Lemma spread_guard_is_off :
  (maxAddressSpread <? wrap32 (maxAddressOfData - minAddressOfData)) = false.
Proof. reflexivity. Qed.

Lemma tableBody_no_spread_error w pe startRVA maxLen st :
  tableBody w pe startRVA maxLen st <> Done (Err ErrAddressSpread).
Proof.
  unfold tableBody. rewrite spread_guard_is_off.
  destruct (wrap32 (startRVA + maxLen) <=? curRVA st); [discriminate|].
  destruct (maxAddressSpread <=? repeatedAddress st); [discriminate|].
  destruct (readThunk w pe (curRVA st)) as [thunk|e| |] eqn:R; try discriminate.
  - repeat match goal with |- context [if ?b then _ else _] => destruct b end;
      discriminate.
  - intros [= ->]. unfold readThunk in R.
    destruct (goSlice _ _ _); [|discriminate].
    destruct (binaryRead _ _); discriminate.
Qed.

Lemma getImportTable_no_spread_error w fuel pe rva maxLen :
  getImportTable w fuel pe rva maxLen <> Err ErrAddressSpread.
Proof.
  unfold getImportTable. generalize (tableInit rva).
  induction fuel as [|fuel IH]; intros st; simpl; [discriminate|].
  destruct (tableBody w pe rva maxLen st) as [st'|r] eqn:B; [apply IH|].
  intros ->. now apply tableBody_no_spread_error in B.
Qed.

End Reader.

(** C2, the code at the failing input: two data addresses 256 MiB apart
    are both accepted, at both widths. *)
Theorem C2_spread_of_256MiB_is_accepted (k : nat) :
  getImportTable32 (C := flat) (3 + k) spreadTable32 0 0x1000
    = Ok [0x10000000; 0x20000000] /\
  getImportTable64 (C := flat) (3 + k) spreadTable64 0 0x1000
    = Ok [0x10000000; 0x20000000].
Proof.
  split; (apply getImportTable_more_fuel; [vm_compute; reflexivity | discriminate]).
Qed.

(** ** Ordinals *)

Section Ordinals.

Context {C : Container}.

Lemma parseImports_more_fuel w pe importDesc maxLen fuel k r :
  parseImports w fuel pe importDesc maxLen = r -> r <> OutOfFuel ->
  parseImports w (fuel + k) pe importDesc maxLen = r.
Proof.
  unfold parseImports. intros <- H.
  destruct (getImportTable w fuel pe (OriginalFirstThunk importDesc) maxLen)
    as [ilt|e| |] eqn:E1; try (now elim H).
  all: rewrite (getImportTable_more_fuel _ _ _ _ _ k _ E1) by discriminate;
    try reflexivity.
  simpl in *.
  destruct (getImportTable w fuel pe (FirstThunk importDesc) maxLen)
    as [iat|e| |] eqn:E2; try (now elim H).
  all: now rewrite (getImportTable_more_fuel _ _ _ _ _ k _ E2) by discriminate.
Qed.

(** An entry with the ordinal flag resolves to an import by ordinal, the
    ordinal being its low 16 bits. *)
Lemma decodeThunk_ordinal w pe thunk :
  0 <= thunk ->
  0 < Z.land thunk (imageOrdinalFlag w) ->
  decodeThunk w pe thunk = Ok (ordinalImport (Z.land (wrap32 thunk) 0xffff) 0).
Proof.
  intros H0 H. unfold decodeThunk.
  assert (0 < thunk) as Hpos.
  { assert (thunk <> 0) by (intros ->; rewrite Z.land_0_l in H; lia). lia. }
  apply Z.ltb_lt in Hpos, H. now rewrite Hpos, H.
Qed.

(** The low 16 bits of the 32-bit truncation are the low 16 bits. *)
Lemma low16_of_wrap32 thunk : Z.land (wrap32 thunk) 0xffff = thunk mod 2 ^ 16.
Proof.
  unfold wrap32. change 0xffff with (Z.ones 16).
  rewrite Z.land_ones by lia.
  apply Z.mod_mod_divide. exists (2 ^ 16). reflexivity.
Qed.


End Ordinals.

(** The three entries of the specification, at 32 bits. *)
Lemma ordinal_0x80000007 (k : nat) :
  parseImports32 (C := flat) (2 + k) (ordinalTable32 0x80000007) selfDescriptor 0x1000
    = Ok [ordinalImport 7 0x400000].
Proof.
  apply parseImports_more_fuel; [vm_compute; reflexivity | discriminate].
Qed.

Lemma ordinal_0x8000FFFF (k : nat) :
  parseImports32 (C := flat) (2 + k) (ordinalTable32 0x8000FFFF) selfDescriptor 0x1000
    = Ok [ordinalImport 0xFFFF 0x400000].
Proof.
  apply parseImports_more_fuel; [vm_compute; reflexivity | discriminate].
Qed.

Lemma ordinal_0x80010000 (k : nat) :
  getImportTable32 (C := flat) (1 + k) (ordinalTable32 0x80010000) 0 0x1000
    = Err ErrBeyond.
Proof.
  apply getImportTable_more_fuel; [vm_compute; reflexivity | discriminate].
Qed.

(** C5, the code at the failing input: the 64-bit entry
    0x8000000100000007 has the ordinal flag and low 63 bits above
    0xFFFF; the reader masks it with 0x7fffffff, finds 7, accepts it,
    and the resolver returns the import by ordinal 7. *)
Theorem C5_wide_ordinal_is_accepted (k : nat) :
  0xffff < Z.land 0x8000000100000007 addressMask64 /\
  getImportTable64 (C := flat) (2 + k) (ordinalTable64 0x8000000100000007) 0 0x1000
    = Ok [0x8000000100000007] /\
  parseImports64 (C := flat) (2 + k) (ordinalTable64 0x8000000100000007)
    selfDescriptor 0x1000
    = Ok [ordinalImport 7 0x400000].
Proof.
  split; [reflexivity|]. split.
  - apply getImportTable_more_fuel; [vm_compute; reflexivity | discriminate].
  - apply parseImports_more_fuel; [vm_compute; reflexivity | discriminate].
Qed.

(** ** Reads outside the file *)

Section Bounds.

Context {C : Container}.

Lemma offsetOf_range pe rva : 0 <= offsetOf pe rva < 2 ^ 32.
Proof. unfold offsetOf, wrap32. apply Z.mod_pos_bound. lia. Qed.

Lemma goSlice_out_of_range a lo hi :
  ~ (lo <= hi <= Z.of_nat (length a)) -> goSlice a lo hi = None.
Proof.
  intros H. unfold goSlice.
  destruct (Z.leb_spec 0 lo), (Z.leb_spec lo hi),
    (Z.leb_spec hi (Z.of_nat (length a))); simpl; try reflexivity; lia.
Qed.

Lemma goSlice_length a lo hi buf :
  goSlice a lo hi = Some buf -> Z.of_nat (length buf) = hi - lo.
Proof.
  unfold goSlice.
  destruct (Z.leb_spec 0 lo), (Z.leb_spec lo hi),
    (Z.leb_spec hi (Z.of_nat (length a))); simpl; try discriminate.
  intros [= <-]. rewrite length_firstn, length_skipn. lia.
Qed.

(** A descriptor read outside the file is a panic of the slice
    expression, not an error value. *)
Lemma readDescriptor_out_of_bounds pe rva size :
  ~ inBounds pe (offsetOf pe rva) size -> readDescriptor pe rva size = Panic.
Proof.
  intros H. unfold readDescriptor. now rewrite goSlice_out_of_range.
Qed.

(** A descriptor read that is inside the file but shorter than a
    descriptor is an error value. *)
Lemma readDescriptor_short pe rva size :
  inBounds pe (offsetOf pe rva) size ->
  wrap32 (offsetOf pe rva + size) - offsetOf pe rva < descriptorSize ->
  exists e, readDescriptor pe rva size = Err e.
Proof.
  intros [H1 H2] Hs. unfold readDescriptor, goSlice.
  pose proof (offsetOf_range pe rva) as [H0 _].
  destruct (Z.leb_spec 0 (offsetOf pe rva)); [|lia].
  destruct (Z.leb_spec (offsetOf pe rva) (wrap32 (offsetOf pe rva + size))); [|lia].
  destruct (Z.leb_spec (wrap32 (offsetOf pe rva + size)) (Z.of_nat (length (data pe))));
    [|lia].
  simpl. unfold binaryRead.
  match goal with |- context [(?a <? ?b)%nat] =>
    destruct (Nat.ltb_spec a b) as [|Hge] end; [eauto|].
  rewrite length_firstn, length_skipn in Hge. unfold descriptorSize in *. lia.
Qed.

(** The same for a thunk: the slice has the width of a thunk or panics,
    so that the error branch after [binary.Read] is never taken. *)
Lemma readThunk_out_of_bounds w pe rva :
  ~ inBounds pe (offsetOf pe rva) (thunkSize w) -> readThunk w pe rva = Panic.
Proof.
  intros H. unfold readThunk. now rewrite goSlice_out_of_range.
Qed.

Lemma readThunk_no_error w pe rva e : readThunk w pe rva <> Err e.
Proof.
  unfold readThunk.
  destruct (goSlice _ _ _) as [buf|] eqn:G; [|discriminate].
  pose proof (goSlice_length _ _ _ _ G) as L.
  pose proof (offsetOf_range pe rva) as R.
  assert (wrap32 (offsetOf pe rva + thunkSize w) - offsetOf pe rva = thunkSize w) as E.
  { unfold goSlice in G.
    destruct (Z.leb_spec (offsetOf pe rva) (wrap32 (offsetOf pe rva + thunkSize w)))
      as [Hle|]; [|rewrite andb_false_r in G; discriminate].
    assert (0 < thunkSize w <= 8) as Hw by (destruct w; simpl; lia).
    revert Hle. generalize (thunkSize w) (offsetOf pe rva) R Hw.
    clear. intros sz off R Hw. unfold wrap32.
    destruct (Z.lt_ge_cases (off + sz) (2 ^ 32)).
    - rewrite Z.mod_small; lia.
    - replace (off + sz) with ((off + sz - 2 ^ 32) + 1 * 2 ^ 32) by lia.
      rewrite Z.mod_add by lia. rewrite Z.mod_small; lia. }
  unfold binaryRead.
  match goal with |- context [(?a <? ?b)%nat] =>
    destruct (Nat.ltb_spec a b) as [Hlt|] end; [|discriminate].
  exfalso. rewrite E in L. lia.
Qed.

End Bounds.

(** C4: when the slice of [size] bytes at the file offset of the
    directory RVA is not within the file, [parseImportDirectory] panics;
    it returns no error value. *)
Theorem C4_descriptor_out_of_bounds_panics {C : Container}
    (fuel : nat) (pe : File) (imports : list Import) (rva size : Z) :
  ~ inBounds pe (offsetOf pe rva) size ->
  parseImportDirectory (S fuel) pe imports rva size = (imports, Panic).
Proof.
  intros H. unfold parseImportDirectory. simpl. unfold walkBody. simpl.
  now rewrite readDescriptor_out_of_bounds.
Qed.

Lemma C4_descriptor_out_of_bounds_panics_witness :
  ~ inBounds shortImage (offsetOf (C := flat) shortImage 0) 20 /\
  parseImportDirectory (C := flat) 1 shortImage [] 0 20 = ([], Panic).
Proof.
  assert (~ inBounds shortImage (offsetOf (C := flat) shortImage 0) 20) as H.
  { unfold inBounds. vm_compute. intros [_ H]. apply H. reflexivity. }
  split; [exact H|].
  exact (C4_descriptor_out_of_bounds_panics (C := flat) 0 shortImage [] 0 20 H).
Defined.

(** The thunk table of a descriptor that names an RVA outside the file:
    the first thunk read panics. *)
Lemma stray_table_panics (k : nat) :
  parseImportDirectory (C := flat) (S k) strayTableImage [] 0 20 = ([], Panic).
Proof. reflexivity. Qed.

(** ** The null descriptor *)

Lemma leUint_zeros n : leUint (zeros n) = 0.
Proof. induction n as [|n IH]; simpl; [reflexivity|]. unfold zeros in IH. now rewrite IH. Qed.

(** C8: a directory whose first descriptor is all zero: the walk ends at
    once with no import and no error.  The read of [size] bytes is
    within the file and long enough for a descriptor. *)
Theorem C8_null_descriptor_ends_the_walk {C : Container}
    (fuel : nat) (pe : File) (rva size : Z) :
  Z.of_nat (length (data pe)) < 2 ^ 32 ->
  descriptorSize <= size ->
  offsetOf pe rva + size <= Z.of_nat (length (data pe)) ->
  firstn 20 (skipn (Z.to_nat (offsetOf pe rva)) (data pe)) = zeros 20 ->
  parseImportDirectory (S fuel) pe [] rva size = ([], Ok tt).
Proof.
  intros Hlen Hsize Hin Hzero. unfold descriptorSize in *.
  pose proof (offsetOf_range pe rva) as [H0 _].
  assert (readDescriptor pe rva size = Ok zeroDescriptor) as R.
  { unfold readDescriptor, goSlice.
    assert (wrap32 (offsetOf pe rva + size) = offsetOf pe rva + size) as ->
      by (unfold wrap32; apply Z.mod_small; lia).
    destruct (Z.leb_spec 0 (offsetOf pe rva)); [|lia].
    destruct (Z.leb_spec (offsetOf pe rva) (offsetOf pe rva + size)); [|lia].
    destruct (Z.leb_spec (offsetOf pe rva + size) (Z.of_nat (length (data pe)))); [|lia].
    simpl. unfold binaryRead, descriptorSize.
    match goal with |- context [(?a <? ?b)%nat] =>
      destruct (Nat.ltb_spec a b) as [Hlt|] end.
    { rewrite length_firstn, length_skipn in Hlt. lia. }
    rewrite firstn_firstn.
    replace (Init.Nat.min (Z.to_nat 20) (Z.to_nat (offsetOf pe rva + size - offsetOf pe rva)))
      with 20%nat by lia.
    rewrite Hzero. reflexivity. }
  unfold parseImportDirectory. simpl. unfold walkBody. simpl.
  rewrite R. reflexivity.
Qed.

Lemma C8_null_descriptor_ends_the_walk_witness :
  parseImportDirectory (C := flat) 1 nullDirectory [] 0 20 = ([], Ok tt).
Proof.
  apply (C8_null_descriptor_ends_the_walk (C := flat) 0 nullDirectory 0 20).
  - vm_compute. reflexivity.
  - vm_compute. discriminate.
  - vm_compute. discriminate.
  - vm_compute. reflexivity.
Defined.

(** ** The bound-address comparison *)

Section BoundAddress.

Context {C : Container}.

(** With both tables non-empty the comparison indexes the address table
    at the index of the table of record, whatever its length. *)
Lemma setAddresses_short_address_table w pe importDesc ilt iat i imp :
  ilt <> [] -> iat <> [] ->
  Z.of_nat (length iat) <= i ->
  setAddresses w pe importDesc ilt iat i imp = Panic.
Proof.
  intros Hl Ha Hi. unfold setAddresses.
  destruct ilt as [|l0 ilt]; [congruence|]. destruct iat as [|a0 iat]; [congruence|].
  cbn [length]. 
  replace (0 <? Z.of_nat (S (length iat))) with true by (symmetry; apply Z.ltb_lt; lia).
  replace (0 <? Z.of_nat (S (length ilt))) with true by (symmetry; apply Z.ltb_lt; lia).
  cbn [andb]. unfold index.
  assert ((a0 :: iat) !! Z.to_nat i = None) as ->.
  { apply lookup_ge_None. cbn [length] in *. lia. }
  destruct ((l0 :: ilt) !! Z.to_nat i); reflexivity.
Qed.

Lemma setAddresses_long_address_table w pe importDesc ilt iat i imp :
  0 <= i < Z.of_nat (length ilt) ->
  (length ilt <= length iat)%nat ->
  exists imp', setAddresses w pe importDesc ilt iat i imp = Ok imp'.
Proof.
  intros Hi Hlen. unfold setAddresses.
  destruct (_ && _); [|eauto]. unfold index.
  destruct (lookup_lt_is_Some_2 ilt (Z.to_nat i)) as [l ->]; [lia|].
  destruct (lookup_lt_is_Some_2 iat (Z.to_nat i)) as [a ->]; [lia|].
  simpl. eauto.
Qed.

End BoundAddress.

(** C9: the two tables of a descriptor are read independently; here the
    lookup table has two entries and the address table one, and the
    resolver indexes the address table at 1. *)
Theorem C9_short_address_table_is_indexed_out_of_range :
  (getImportTable32 (C := flat) 5 unevenTables32 0 0x1000
     = Ok [0x80000001; 0x80000002] /\
   getImportTable32 (C := flat) 5 unevenTables32 12 0x1000
     = Ok [0x80000001] /\
   parseImports32 (C := flat) 5 unevenTables32 (unevenDescriptor 12) 0x1000
     = Panic) /\
  (getImportTable64 (C := flat) 5 unevenTables64 0 0x1000
     = Ok [0x8000000000000001; 0x8000000000000002] /\
   getImportTable64 (C := flat) 5 unevenTables64 24 0x1000
     = Ok [0x8000000000000001] /\
   parseImports64 (C := flat) 5 unevenTables64 (unevenDescriptor 24) 0x1000
     = Panic).
Proof. repeat split; vm_compute; reflexivity. Qed.

(** ** The length bound of the thunk tables *)


Lemma wrap32_small x : 0 <= x < 2 ^ 32 -> wrap32 x = x.
Proof. apply Z.mod_small. Qed.



(** ** The directory size *)

Section Walk.

Context {C : Container}.

Lemma wrap32_add_l a b : wrap32 (wrap32 a + b) = wrap32 (a + b).
Proof. unfold wrap32. apply Z.add_mod_idemp_l. lia. Qed.




End Walk.



(** ** Invalid names *)

Section InvalidNames.

Context {C : Container}.

(** A name that fails the check is replaced by the sentinel. *)
Lemma decodeThunk_name w pe thunk bytes hint :
  0 < thunk ->
  Z.land thunk (imageOrdinalFlag w) <= 0 ->
  getData pe (wrap32 (Z.land thunk (addressMask w))) 2 = Some bytes ->
  leUint16 bytes = Ok hint ->
  decodeThunk w pe thunk =
    Ok (namedImport
          (let name := getStringAtRVA pe (wrap32 (wrapThunk w (thunk + 2))) in
           if IsValidFunctionName name then name else invalidName)
          hint (wrap32 thunk) 0).
Proof.
  intros Hpos Hflag Hdata Hhint. unfold decodeThunk.
  apply Z.ltb_lt in Hpos. rewrite Hpos.
  destruct (Z.ltb_spec 0 (Z.land thunk (imageOrdinalFlag w))); [lia|].
  rewrite Hdata, Hhint. reflexivity.
Qed.

Lemma skipInvalid_after_kept imps : forall i dropped kept,
  dropped < i ->
  skipInvalid imps i dropped kept
  = Ok (kept ++ List.filter (fun imp => negb (isInvalid imp)) imps).
Proof.
  induction imps as [|imp imps IH]; intros i dropped kept H; simpl.
  - now rewrite app_nil_r.
  - destruct (isInvalid imp); simpl.
    + destruct (Z.eqb_spec dropped i); [lia|]. rewrite andb_false_r.
      apply IH. lia.
    + rewrite IH by lia. now rewrite <- app_assoc.
Qed.

Lemma skipInvalid_from_start imps : forall i kept,
  0 <= i <= 1001 ->
  skipInvalid imps i i kept =
    if forallb isInvalid (firstn (Z.to_nat (1002 - i)) imps)
       && (Z.to_nat (1002 - i) <=? length imps)%nat
    then Err ErrTooManyInvalid
    else Ok (kept ++ List.filter (fun imp => negb (isInvalid imp)) imps).
Proof.
  induction imps as [|imp imps IH]; intros i kept H.
  - simpl. rewrite firstn_nil. simpl.
    destruct (Nat.leb_spec (Z.to_nat (1002 - i)) 0); [lia|].
    now rewrite app_nil_r.
  - replace (Z.to_nat (1002 - i)) with (S (Z.to_nat (1002 - (i + 1)))) by lia.
    cbn [skipInvalid firstn forallb length List.filter].
    change (S (Z.to_nat (1002 - (i + 1))) <=? S (length imps))%nat
      with (Z.to_nat (1002 - (i + 1)) <=? length imps)%nat.
    destruct (isInvalid imp); cbn [negb andb].
    + rewrite Z.eqb_refl, andb_true_r.
      destruct (Z.ltb_spec 1000 i).
      * assert (i = 1001) as -> by lia. reflexivity.
      * apply IH. lia.
    + rewrite skipInvalid_after_kept by lia. now rewrite <- app_assoc.
Qed.

Lemma resolveLoop_skipInvalid w pe importDesc ilt iat table imps :
  Z.of_nat (length table) < 2 ^ 32 ->
  length imps = length table ->
  (forall i imp, imps !! i = Some imp ->
     resolveEntry w pe importDesc ilt iat table (Z.of_nat i) = Ok imp /\
     (0 < Ordinal imp \/ fnName imp <> EmptyString)) ->
  forall n k st,
  (k + n)%nat = length table ->
  idx st = Z.of_nat k ->
  0 <= numInvalid st <= idx st ->
  resolveLoop w pe importDesc ilt iat table n st
  = skipInvalid (skipn k imps) (idx st) (numInvalid st) (importedFunctions st).
Proof.
  intros Hlen Himps Hentry.
  induction n as [|n IH]; intros k st Hk Hidx Hnum.
  - simpl. rewrite skipn_all2 by lia. reflexivity.
  - destruct (lookup_lt_is_Some_2 imps k ltac:(lia)) as [imp Himp].
    rewrite (drop_S _ _ _ Himp). destruct (Hentry _ _ Himp) as [He Hv].
    cbn [resolveLoop skipInvalid]. unfold resolveBody.
    rewrite Hidx, He, <- Hidx. fold (isInvalid imp).
    assert ((Ordinal imp =? 0) && negb (negb (String.eqb (fnName imp) EmptyString)) = false)
      as ->.
    { destruct Hv as [Hv|Hv].
      - destruct (Z.eqb_spec (Ordinal imp) 0); [lia|reflexivity].
      - apply String.eqb_neq in Hv. rewrite Hv. apply andb_false_r. }
    assert (wrap32 (idx st + 1) = idx st + 1) as Ei by (apply wrap32_small; lia).
    assert (wrap32 (numInvalid st + 1) = numInvalid st + 1) as En
      by (apply wrap32_small; lia).
    destruct (isInvalid imp) eqn:Hinv.
    + destruct ((1000 <? numInvalid st) && (numInvalid st =? idx st)); [reflexivity|].
      rewrite (IH (S k)); cbn [idx numInvalid importedFunctions]; rewrite ?Ei, ?En;
        try reflexivity; lia.
    + assert ((0 <? Ordinal imp) || negb (String.eqb (fnName imp) EmptyString) = true)
        as ->.
      { destruct Hv as [Hv|Hv].
        - apply Z.ltb_lt in Hv. now rewrite Hv.
        - apply String.eqb_neq in Hv. rewrite Hv. apply orb_true_r. }
      rewrite (IH (S k)); cbn [idx numInvalid importedFunctions]; rewrite ?Ei;
        try reflexivity; lia.
Qed.

End InvalidNames.

(** ** Byte strings *)

Lemma byteZ_zByte z : byteZ (zByte z) = z mod 256.
Proof.
  unfold byteZ, zByte.
  assert (0 <= z mod 256 < 256) as H by (apply Z.mod_pos_bound; lia).
  destruct (Byte.of_N (Z.to_N (z mod 256))) as [b|] eqn:E.
  - apply Byte.to_of_N in E. rewrite E. lia.
  - apply Byte.of_N_None_iff in E. lia.
Qed.

Lemma leUint_leBytes n : forall z,
  leUint (leBytes n z) = z mod 256 ^ Z.of_nat n.
Proof.
  induction n as [|n IH]; intros z.
  - simpl. now rewrite Z.mod_1_r.
  - cbn [leBytes leUint]. rewrite IH, byteZ_zByte.
    rewrite Nat2Z.inj_succ, Z.pow_succ_r by lia.
    rewrite Z.rem_mul_r by lia. reflexivity.
Qed.

Lemma length_leBytes n : forall z, length (leBytes n z) = n.
Proof. induction n as [|n IH]; intros z; simpl; [reflexivity|]. now rewrite IH. Qed.

Lemma length_words32 l : length (words32 l) = (4 * length l)%nat.
Proof.
  unfold words32. induction l as [|x l IH]; [reflexivity|].
  cbn [flat_map]. rewrite length_app, length_leBytes, IH. simpl. lia.
Qed.

Lemma length_zeros n : length (zeros n) = n.
Proof. apply repeat_length. Qed.

Lemma skipn_zeros k n : skipn k (zeros n) = zeros (n - k).
Proof.
  unfold zeros. revert n. induction k as [|k IH]; intros [|n]; simpl; auto.
Qed.

(** The [j]-th word of a table that starts the file. *)
Lemma word_at l : forall j rest v,
  l !! j = Some v ->
  firstn 4 (skipn (4 * j) (words32 l ++ rest)) = leBytes 4 v.
Proof.
  induction l as [|x l IH]; intros j rest v H; [discriminate|].
  destruct j as [|j].
  - injection H as ->. reflexivity.
  - replace (4 * S j)%nat with (4 + 4 * j)%nat by lia.
    change (words32 (x :: l) ++ rest)
      with (zByte x :: zByte (x / 256) :: zByte (x / 256 / 256)
              :: zByte (x / 256 / 256 / 256) :: (words32 l ++ rest)).
    cbn [Nat.add skipn]. now apply IH.
Qed.

(** Thunks that are read as data addresses. *)
Lemma land_flag32_small v : 0 <= v < 2 ^ 31 -> Z.land v imageOrdinalFlag32 = 0.
Proof.
  intros H. change imageOrdinalFlag32 with (2 ^ 31). apply Z.bits_inj'.
  intros k Hk. rewrite Z.land_spec, Z.bits_0, Z.pow2_bits_eqb by lia.
  destruct (Z.eqb_spec 31 k) as [<-|]; [|apply andb_false_r].
  rewrite andb_true_r. apply Z.testbit_false; [lia|].
  rewrite Z.div_small by lia. reflexivity.
Qed.

Section Steps.

Context {C : Container}.

Lemma tableBody_fresh_address w pe startRVA maxLen st thunk :
  curRVA st < wrap32 (startRVA + maxLen) ->
  repeatedAddress st < maxAddressSpread ->
  readThunk w pe (curRVA st) = Ok thunk ->
  thunk <> 0 ->
  ~ (startRVA <= thunk <= curRVA st) ->
  Z.land thunk (imageOrdinalFlag w) <= 0 ->
  thunk ∉ addressesOfData st ->
  tableBody w pe startRVA maxLen st
  = Next (pushThunk w st thunk (repeatedAddress st) ({[thunk]} ∪ addressesOfData st)).
Proof.
  intros Hb Hr Hread Hnz Hrange Hflag Hnew. unfold tableBody.
  rewrite spread_guard_is_off, Hread.
  destruct (Z.leb_spec (wrap32 (startRVA + maxLen)) (curRVA st)); [lia|].
  destruct (Z.leb_spec maxAddressSpread (repeatedAddress st)); [lia|].
  destruct (Z.eqb_spec thunk 0); [lia|].
  destruct (Z.leb_spec startRVA thunk), (Z.leb_spec thunk (curRVA st));
    cbn [andb]; try lia.
  all: destruct (Z.ltb_spec 0 (Z.land thunk (imageOrdinalFlag w))); [lia|].
  all: now rewrite bool_decide_eq_false_2.
Qed.

Lemma tableBody_terminator w pe startRVA maxLen st :
  repeatedAddress st < maxAddressSpread ->
  readThunk w pe (curRVA st) = Ok 0 ->
  tableBody w pe startRVA maxLen st = Done (Ok (retVal st)).
Proof.
  intros Hr Hread. unfold tableBody. rewrite spread_guard_is_off, Hread.
  destruct (_ <=? curRVA st); [reflexivity|].
  destruct (Z.leb_spec maxAddressSpread (repeatedAddress st)); [lia|reflexivity].
Qed.

End Steps.

(** ** Reads of a container without sections *)

Lemma flat_readThunk32 pe l rest j v :
  data pe = words32 l ++ rest ->
  l !! j = Some v ->
  0 <= v < 2 ^ 32 ->
  4 * Z.of_nat (length l) < 2 ^ 32 ->
  readThunk (C := flat) PE32 pe (4 * Z.of_nat j) = Ok v.
Proof.
  intros Hdata Hj Hv Hlen.
  pose proof (lookup_lt_Some _ _ _ Hj) as Hlt.
  unfold readThunk, offsetOf. cbn [getOffsetFromRva flat thunkSize].
  rewrite (wrap32_small (4 * Z.of_nat j)) by lia.
  rewrite wrap32_small by lia.
  unfold goSlice. rewrite Hdata, length_app, length_words32.
  destruct (Z.leb_spec 0 (4 * Z.of_nat j)); [|lia].
  destruct (Z.leb_spec (4 * Z.of_nat j) (4 * Z.of_nat j + 4)); [|lia].
  destruct (Z.leb_spec (4 * Z.of_nat j + 4)
              (Z.of_nat (4 * length l + length rest))); [|lia].
  cbn [andb].
  replace (Z.to_nat (4 * Z.of_nat j + 4 - 4 * Z.of_nat j)) with 4%nat by lia.
  replace (Z.to_nat (4 * Z.of_nat j)) with (4 * j)%nat by lia.
  rewrite (word_at l j rest v Hj).
  change (binaryRead (Z.to_nat 4) (leBytes 4 v)) with (inr (A := error) (leBytes 4 v)).
  cbv beta iota. rewrite leUint_leBytes. f_equal. apply Z.mod_small. exact Hv.
Qed.

(** A table of distinct data addresses that all lie after the table is
    read to its terminator and returned whole. *)
Lemma flat_read_table pe l rest maxLen :
  data pe = words32 (l ++ [0]) ++ rest ->
  NoDup l ->
  (forall v, v ∈ l -> 4 * Z.of_nat (length l) < v < 2 ^ 31) ->
  4 * Z.of_nat (length l) < maxLen <= 2 ^ 31 ->
  forall k, getImportTable32 (C := flat) (S (length l) + k) pe 0 maxLen = Ok l.
Proof.
  intros Hdata Hdup Hin Hmax k.
  apply getImportTable_more_fuel; [|discriminate].
  unfold getImportTable.
  assert (forall m j st,
    (j + m)%nat = length l ->
    curRVA st = 4 * Z.of_nat j ->
    repeatedAddress st = 0 ->
    (forall x, x ∈ addressesOfData st -> x ∈ take j l) ->
    retVal st = take j l ->
    tableLoop (C := flat) PE32 pe 0 maxLen (S m) st = Ok l) as Inv.
  { assert (4 * Z.of_nat (length (l ++ [0])) < 2 ^ 32) as Hlen'
      by (rewrite length_app; cbn [length]; lia).
    induction m as [|m IH]; intros j st Hj Hcur Hrep Hseen Hret; cbn [tableLoop].
    - rewrite tableBody_terminator.
      + rewrite Hret, take_ge by lia. reflexivity.
      + rewrite Hrep. reflexivity.
      + rewrite Hcur. apply (flat_readThunk32 pe (l ++ [0]) rest j 0 Hdata);
          [|lia|exact Hlen'].
        replace j with (length l + 0)%nat by lia.
        now rewrite lookup_app_r, Nat.add_comm, Nat.add_sub by lia.
    - destruct (lookup_lt_is_Some_2 l j ltac:(lia)) as [v Hv].
      assert (v ∈ l) as Hvl by (apply list_elem_of_lookup; eauto).
      specialize (Hin v Hvl).
      rewrite (tableBody_fresh_address PE32 pe 0 maxLen st v).
      + apply (IH (S j)); cbn [pushThunk curRVA repeatedAddress addressesOfData
                               retVal thunkSize]; try lia.
        * rewrite Hcur. rewrite wrap32_small; lia.
        * intros x Hx. rewrite (take_S_r _ _ _ Hv). apply elem_of_app.
          apply elem_of_union in Hx as [Hx|Hx].
          -- right. apply elem_of_singleton in Hx as ->. apply list_elem_of_here.
          -- left. now apply Hseen.
        * now rewrite Hret, (take_S_r _ _ _ Hv).
      + rewrite wrap32_small; lia.
      + rewrite Hrep. reflexivity.
      + rewrite Hcur. apply (flat_readThunk32 pe (l ++ [0]) rest j v Hdata);
          [|lia|exact Hlen'].
        now rewrite lookup_app_l by lia.
      + lia.
      + lia.
      + cbn [imageOrdinalFlag]. rewrite land_flag32_small; lia.
      + intros Hx. apply Hseen in Hx. apply elem_of_take in Hx as (i & Hi & Hlt).
        pose proof (NoDup_lookup _ _ _ _ Hdup Hi Hv). lia. }
  apply (Inv (length l) 0%nat); try reflexivity.
  cbn [tableInit addressesOfData]. intros x Hx.
  now apply not_elem_of_empty in Hx.
Qed.

(** ** The tables of [invalidNames] *)

Section InvalidTables.

Variable n : nat.
Hypothesis n_small : (n <= 1010)%nat.

Lemma length_invalidTable : length (invalidTable n) = n.
Proof. unfold invalidTable. now rewrite length_map, length_seq. Qed.

Lemma invalidTable_lookup i :
  (i < n)%nat -> invalidTable n !! i = Some (0x1000 + Z.of_nat i).
Proof.
  intros H. unfold invalidTable. rewrite list_lookup_fmap, lookup_seq_lt by lia.
  reflexivity.
Qed.

Lemma invalidNames_length :
  Z.of_nat (length (data (invalidNames n))) = 0x1000 + Z.of_nat n + 8.
Proof.
  cbn [invalidNames image32 data].
  rewrite length_app, length_words32, length_app, length_invalidTable, length_zeros.
  cbn [length]. lia.
Qed.

Lemma invalidNames_skip k :
  0x1000 <= k ->
  skipn (Z.to_nat k) (data (invalidNames n))
  = zeros (Z.to_nat (0x1000 + Z.of_nat n + 8 - k)).
Proof.
  intros H. cbn [invalidNames image32 data].
  assert (length (words32 (invalidTable n ++ [0])) = (4 * (n + 1))%nat) as L
    by (rewrite length_words32, length_app, length_invalidTable; reflexivity).
  rewrite skipn_app, L, skipn_all2, skipn_zeros by lia.
  cbn [app]. f_equal. lia.
Qed.

Lemma zeros_cons m : (0 < m)%nat -> zeros m = x00 :: zeros (m - 1).
Proof. destruct m; [lia|]. intros _. simpl. now rewrite Nat.sub_0_r. Qed.

(** Every entry of the table names an empty name: the import built from
    it carries the sentinel. *)
Lemma invalidNames_decode i :
  (i < n)%nat ->
  decodeThunk (C := flat) PE32 (invalidNames n) (0x1000 + Z.of_nat i)
  = Ok (namedImport invalidName 0 (0x1000 + Z.of_nat i) 0).
Proof.
  intros Hi. set (v := 0x1000 + Z.of_nat i).
  assert (0x1000 <= v < 0x2000) as Hv by (subst v; lia).
  assert (Z.land v (addressMask PE32) = v) as Hmask.
  { change (addressMask PE32) with (Z.ones 31).
    rewrite Z.land_ones by lia. apply Z.mod_small. lia. }
  rewrite (decodeThunk_name (C := flat) PE32 (invalidNames n) v [x00; x00] 0).
  - cbn [getStringAtRVA flat IsValidFunctionName wrapThunk].
    rewrite (wrap32_small (v + 2)), (wrap32_small (v + 2)), (wrap32_small v) by lia.
    rewrite invalidNames_skip by lia.
    rewrite zeros_cons by lia. reflexivity.
  - lia.
  - cbn [imageOrdinalFlag]. rewrite land_flag32_small; lia.
  - cbn [getData flat]. rewrite Hmask, wrap32_small by lia.
    unfold goSlice. rewrite invalidNames_length.
    destruct (Z.leb_spec 0 v); [|lia].
    destruct (Z.leb_spec v (v + 2)); [|lia].
    destruct (Z.leb_spec (v + 2) (0x1000 + Z.of_nat n + 8)); [|lia].
    cbn [andb]. rewrite invalidNames_skip by lia.
    replace (Z.to_nat (v + 2 - v)) with 2%nat by lia.
    rewrite zeros_cons by lia. rewrite (zeros_cons (_ - 1)) by lia. reflexivity.
  - reflexivity.
Qed.

Lemma invalidNames_entry i imp :
  invalidImports n !! i = Some imp ->
  resolveEntry (C := flat) PE32 (invalidNames n) selfDescriptor
    (invalidTable n) (invalidTable n) (invalidTable n) (Z.of_nat i) = Ok imp /\
  (0 < Ordinal imp \/ fnName imp <> EmptyString).
Proof.
  intros H. unfold invalidImports in H.
  rewrite list_lookup_fmap in H.
  destruct (seq 0 n !! i) as [i'|] eqn:E; [|discriminate].
  apply lookup_seq in E as [-> Hi]. cbn [fmap option_fmap option_map] in H.
  injection H as <-. split; [|right; discriminate].
  unfold resolveEntry, index. rewrite Nat2Z.id, invalidTable_lookup by lia.
  cbn [mbind outcome_bind]. rewrite invalidNames_decode by lia.
  cbn [mbind outcome_bind]. unfold setAddresses, index.
  rewrite length_invalidTable, Nat2Z.id, invalidTable_lookup by lia.
  replace (0 <? Z.of_nat n) with true by (symmetry; apply Z.ltb_lt; lia).
  cbn [andb mbind outcome_bind]. rewrite Z.eqb_refl.
  cbn [namedImport fnName Hint Offset ByOrdinal Ordinal Bound FirstThunk
       selfDescriptor ImageBase invalidNames image32 thunkSize].
  rewrite wrap32_small by lia. f_equal.
Qed.

Lemma invalidImports_all_invalid l :
  forallb isInvalid (map (fun i => {| fnName := invalidName; Hint := 0;
                   Offset := 0x1000 + Z.of_nat i; ByOrdinal := false;
                   Ordinal := 0; Address := 0x400000 + Z.of_nat i * 4;
                   Bound := 0 |}) l) = true /\
  List.filter (fun imp => negb (isInvalid imp))
    (map (fun i => {| fnName := invalidName; Hint := 0;
                   Offset := 0x1000 + Z.of_nat i; ByOrdinal := false;
                   Ordinal := 0; Address := 0x400000 + Z.of_nat i * 4;
                   Bound := 0 |}) l) = [].
Proof. induction l as [|i l [IH1 IH2]]; split; simpl; auto. Qed.

End InvalidTables.

Lemma invalidNames_read n :
  (n <= 1010)%nat ->
  getImportTable32 (C := flat) (S n) (invalidNames n) 0 0x1000
  = Ok (invalidTable n).
Proof.
  intros Hn.
  pose proof (flat_read_table (invalidNames n) (invalidTable n)
                (zeros (0x1000 - 4 * (n + 1) + n + 8)) 0x1000) as H.
  rewrite length_invalidTable in H. rewrite <- (Nat.add_0_r (S n)).
  apply H.
  - reflexivity.
  - unfold invalidTable. apply NoDup_fmap_2; [|apply NoDup_seq].
    intros i j E. lia.
  - intros v Hv. unfold invalidTable in Hv.
    apply list_elem_of_fmap in Hv as (i & -> & Hi).
    apply elem_of_seq in Hi. lia.
  - lia.
Qed.

Lemma invalidNames_resolved n :
  (0 < n <= 1010)%nat ->
  resolveTables (C := flat) PE32 (invalidNames n) selfDescriptor
    (invalidTable n) (invalidTable n)
  = if (1002 <=? n)%nat then Err ErrTooManyInvalid else Ok [].
Proof.
  intros Hn. unfold resolveTables. rewrite length_invalidTable.
  destruct (Nat.eqb_spec n 0); [lia|]. cbn [andb].
  destruct (Nat.ltb_spec 0 n); [|lia].
  rewrite length_invalidTable, wrap32_small, Nat2Z.id by lia.
  rewrite (resolveLoop_skipInvalid (C := flat) PE32 (invalidNames n) selfDescriptor
             (invalidTable n) (invalidTable n) (invalidTable n) (invalidImports n)
             ltac:(rewrite length_invalidTable; lia)
             ltac:(unfold invalidImports;
                   now rewrite length_map, length_seq, length_invalidTable)
             (invalidNames_entry n ltac:(lia)) n 0
             {| idx := 0; numInvalid := 0; importedFunctions := [] |})
    by (rewrite ?length_invalidTable; cbn [idx numInvalid]; lia).
  cbn [idx numInvalid importedFunctions skipn].
  rewrite skipInvalid_from_start by lia.
  change (Z.to_nat (1002 - 0)) with 1002%nat.
  unfold invalidImports. rewrite !skipn_O, firstn_map.
  rewrite (proj1 (invalidImports_all_invalid _)), (proj2 (invalidImports_all_invalid _)).
  rewrite length_map, length_seq. reflexivity.
Qed.

Lemma invalidNames_parse n :
  (0 < n <= 1010)%nat ->
  parseImports32 (C := flat) (S n) (invalidNames n) selfDescriptor 0x1000
  = if (1002 <=? n)%nat then Err ErrTooManyInvalid else Ok [].
Proof.
  intros Hn. pose proof (invalidNames_read n ltac:(lia)) as R.
  unfold getImportTable32 in R. unfold parseImports32, parseImports.
  cbn [OriginalFirstThunk FirstThunk selfDescriptor].
  rewrite R. cbn [mbind outcome_bind].
  now apply invalidNames_resolved.
Qed.


(** One entry more, and the resolver gives up. *)
Lemma invalid_names_1002 :
  parseImports32 (C := flat) 1003 (invalidNames 1002) selfDescriptor 0x1000
    = Err ErrTooManyInvalid.
Proof.
  assert (0 < 1002 <= 1010)%nat as Hn by lia.
  rewrite (invalidNames_parse 1002 Hn). reflexivity.
Qed.



(** The reader and the resolver together, on the same file. *)
Lemma interleaved_parse (k : nat) :
  parseImports32 (C := flat) (5 + k) interleaved selfDescriptor 0x100
  = Ok [ namedImport "ab" 1 0x20 0x400000;
         ordinalImport 5 0x400008;
         namedImport "cd" 3 0x30 0x40000c ].
Proof.
  apply parseImports_more_fuel; [vm_compute; reflexivity | discriminate].
Qed.

(** ** Termination of a table read *)

Section Termination.

Context {C : Container}.






End Termination.

Lemma self_referential_table (k : nat) :
  getImportTable32 (C := flat) (2 + k) selfReferential 8 0x1000 = Ok [0x2000].
Proof.
  apply getImportTable_more_fuel; [vm_compute; reflexivity | discriminate].
Qed.






(** ** The entries a table read returns *)

Section ReaderResults.

Context {C : Container}.

(** What a pass that collects an entry has checked and changed. *)
Lemma tableBody_next_inv w pe startRVA maxLen st st' :
  tableBody w pe startRVA maxLen st = Next st' ->
  exists thunk,
    readThunk w pe (curRVA st) = Ok thunk /\
    accepted w startRVA (curRVA st) thunk /\
    curRVA st < wrap32 (startRVA + maxLen) /\
    curRVA st' = wrap32 (curRVA st + thunkSize w) /\
    retVal st' = retVal st ++ [thunk].
Proof.
  unfold tableBody.
  destruct (Z.leb_spec (wrap32 (startRVA + maxLen)) (curRVA st)); [discriminate|].
  destruct (maxAddressSpread <=? repeatedAddress st); [discriminate|].
  destruct (maxAddressSpread <? _); [discriminate|].
  destruct (readThunk w pe (curRVA st)) as [thunk|e| |]; try discriminate.
  destruct (Z.eqb_spec thunk 0); [discriminate|].
  destruct (Z.leb_spec startRVA thunk), (Z.leb_spec thunk (curRVA st));
    cbn [andb]; try discriminate.
  all: destruct (Z.ltb_spec 0 (Z.land thunk (imageOrdinalFlag w)));
    [destruct (Z.ltb_spec 0xffff (Z.land thunk 0x7fffffff)); [discriminate|]
    |destruct (bool_decide _)].
  all: intros [= <-]; exists thunk; unfold accepted;
    cbn [pushThunk curRVA retVal]; repeat split; auto; lia.
Qed.

Lemma tableBody_done_ok w pe startRVA maxLen st l :
  tableBody w pe startRVA maxLen st = Done (Ok l) -> l = retVal st.
Proof.
  unfold tableBody.
  destruct (readThunk w pe (curRVA st)); 
    repeat match goal with |- context [if ?b then _ else _] => destruct b end;
    intros [= <-]; reflexivity.
Qed.

Lemma tableBody_done_err w pe startRVA maxLen st e :
  tableBody w pe startRVA maxLen st = Done (Err e) ->
  e = ErrBogusData \/ e = ErrBeyond.
Proof.
  unfold tableBody. rewrite spread_guard_is_off.
  pose proof (readThunk_no_error w pe (curRVA st)) as R.
  destruct (readThunk w pe (curRVA st)) as [thunk|e'| |];
    try (now elim (R e'));
    repeat match goal with |- context [if ?b then _ else _] => destruct b end;
    intros [= <-]; auto.
Qed.

Lemma nthRVA_S w rva i :
  nthRVA w rva (S i) = wrap32 (nthRVA w rva i + thunkSize w).
Proof. reflexivity. Qed.

(** X1: the entries of a table that was read are the thunks found at the
    consecutive RVAs of the table, and each one passed the checks of the
    reader; no zero entry is among them. *)
Theorem reader_returns_the_thunks_read w fuel pe rva maxLen l :
  getImportTable w fuel pe rva maxLen = Ok l ->
  forall i thunk, l !! i = Some thunk ->
    readThunk w pe (nthRVA w rva i) = Ok thunk /\
    accepted w rva (nthRVA w rva i) thunk.
Proof.
  unfold getImportTable.
  assert (forall st,
    curRVA st = nthRVA w rva (length (retVal st)) ->
    (forall i thunk, retVal st !! i = Some thunk ->
       readThunk w pe (nthRVA w rva i) = Ok thunk /\
       accepted w rva (nthRVA w rva i) thunk) ->
    tableLoop w pe rva maxLen fuel st = Ok l ->
    forall i thunk, l !! i = Some thunk ->
      readThunk w pe (nthRVA w rva i) = Ok thunk /\
      accepted w rva (nthRVA w rva i) thunk) as Inv.
  { induction fuel as [|fuel IH]; intros st Hcur Hret; cbn [tableLoop];
      [discriminate|].
    destruct (tableBody w pe rva maxLen st) as [st'|r] eqn:B.
    - apply tableBody_next_inv in B as (t & Hread & Hacc & _ & Hcur' & Hret').
      apply IH.
      + rewrite Hcur', Hret', length_app, Nat.add_comm, Hcur. reflexivity.
      + intros i thunk Hi. rewrite Hret' in Hi.
        apply lookup_app_Some in Hi as [Hi|[Hge Hi]]; [now apply Hret|].
        apply list_lookup_singleton_Some in Hi as [Hi ->].
        replace i with (length (retVal st)) by lia. now rewrite <- Hcur.
    - intros ->. apply tableBody_done_ok in B as ->. exact Hret. }
  apply Inv; [reflexivity|]. intros i thunk Hi. discriminate.
Qed.

(** X3: a table read fails with one of two errors only, the bogus-data
    error of the repeat counter and the error of an ordinal beyond
    0xFFFF; a read outside the file is a panic, not an error. *)
Theorem reader_errors w fuel pe rva maxLen e :
  getImportTable w fuel pe rva maxLen = Err e ->
  e = ErrBogusData \/ e = ErrBeyond.
Proof.
  unfold getImportTable. generalize (tableInit rva).
  induction fuel as [|fuel IH]; intros st; cbn [tableLoop]; [discriminate|].
  destruct (tableBody w pe rva maxLen st) as [st'|r] eqn:B; [apply IH|].
  intros ->. now apply tableBody_done_err in B.
Qed.

(** X2: when the bound [rva + maxLen] does not wrap around, the table
    returned has at most [maxLen / width] entries, rounded up. *)
Theorem reader_length_bound w fuel pe rva maxLen l :
  0 <= rva -> 0 <= maxLen -> rva + maxLen + thunkSize w <= 2 ^ 32 ->
  getImportTable w fuel pe rva maxLen = Ok l ->
  thunkSize w * Z.of_nat (length l) < maxLen + thunkSize w.
Proof.
  intros Hr Hm Hb. unfold getImportTable.
  assert (0 < thunkSize w) as Hw by (destruct w; reflexivity).
  assert (forall st,
    curRVA st = rva + thunkSize w * Z.of_nat (length (retVal st)) ->
    thunkSize w * Z.of_nat (length (retVal st)) < maxLen + thunkSize w ->
    tableLoop w pe rva maxLen fuel st = Ok l ->
    thunkSize w * Z.of_nat (length l) < maxLen + thunkSize w) as Inv.
  { induction fuel as [|fuel IH]; intros st Hcur Hlen; cbn [tableLoop];
      [discriminate|].
    destruct (tableBody w pe rva maxLen st) as [st'|r] eqn:B.
    - apply tableBody_next_inv in B as (t & _ & _ & Hlt & Hcur' & Hret').
      rewrite wrap32_small in Hlt by lia.
      apply IH; rewrite Hret', length_app; cbn [length].
      + rewrite Hcur', wrap32_small; lia.
      + lia.
    - intros ->. apply tableBody_done_ok in B as ->. exact Hlen. }
  apply Inv; cbn [tableInit curRVA retVal length]; lia.
Qed.

End ReaderResults.

Section ReaderComplete.

Context {C : Container}.

(** A pass over an entry that passes the checks collects it; the repeat
    counter grows by one at most. *)
Lemma tableBody_accepted w pe startRVA maxLen st thunk :
  curRVA st < wrap32 (startRVA + maxLen) ->
  0 <= repeatedAddress st < maxAddressSpread ->
  readThunk w pe (curRVA st) = Ok thunk ->
  accepted w startRVA (curRVA st) thunk ->
  exists st',
    tableBody w pe startRVA maxLen st = Next st' /\
    curRVA st' = wrap32 (curRVA st + thunkSize w) /\
    retVal st' = retVal st ++ [thunk] /\
    repeatedAddress st <= repeatedAddress st' <= repeatedAddress st + 1.
Proof.
  intros Hb Hr Hread (Hnz & Hrange & Hord). unfold tableBody.
  rewrite spread_guard_is_off, Hread.
  destruct (Z.leb_spec (wrap32 (startRVA + maxLen)) (curRVA st)); [lia|].
  destruct (Z.leb_spec maxAddressSpread (repeatedAddress st)); [lia|].
  destruct (Z.eqb_spec thunk 0); [lia|].
  assert ((startRVA <=? thunk) && (thunk <=? curRVA st) = false) as ->.
  { destruct (Z.leb_spec startRVA thunk), (Z.leb_spec thunk (curRVA st));
      cbn [andb]; auto; lia. }
  destruct (Z.ltb_spec 0 (Z.land thunk (imageOrdinalFlag w))) as [Hflag|_].
  - destruct (Z.ltb_spec 0xffff (Z.land thunk 0x7fffffff)); [specialize (Hord Hflag); lia|].
    eexists. split; [reflexivity|]. cbn [pushThunk curRVA retVal repeatedAddress].
    repeat split; lia.
  - destruct (bool_decide _); (eexists; split; [reflexivity|]);
      cbn [pushThunk curRVA retVal repeatedAddress]; repeat split; try lia.
    all: rewrite wrap32_small; unfold maxAddressSpread in *; lia.
Qed.

(** X4: a table of fewer than 2^27 entries that pass the checks,
    followed by a zero entry within the bound, is returned whole and
    without its terminator. *)
Theorem reader_returns_the_table_before_the_terminator
    w pe rva maxLen l k :
  0 <= rva ->
  rva + maxLen < 2 ^ 32 ->
  thunkSize w * Z.of_nat (length l) < maxLen ->
  Z.of_nat (length l) < maxAddressSpread ->
  (forall i thunk, l !! i = Some thunk ->
     readThunk w pe (rva + thunkSize w * Z.of_nat i) = Ok thunk /\
     accepted w rva (rva + thunkSize w * Z.of_nat i) thunk) ->
  readThunk w pe (rva + thunkSize w * Z.of_nat (length l)) = Ok 0 ->
  getImportTable w (S (length l) + k) pe rva maxLen = Ok l.
Proof.
  intros Hr Hb Hlen Hrep Hl Hterm.
  assert (0 < thunkSize w) as Hw by (destruct w; reflexivity).
  apply getImportTable_more_fuel; [|discriminate]. unfold getImportTable.
  assert (forall m j st,
    (j + m)%nat = length l ->
    curRVA st = rva + thunkSize w * Z.of_nat j ->
    0 <= repeatedAddress st <= Z.of_nat j ->
    retVal st = take j l ->
    tableLoop w pe rva maxLen (S m) st = Ok l) as Inv.
  { induction m as [|m IH]; intros j st Hj Hcur Hcount Hret; cbn [tableLoop].
    - rewrite tableBody_terminator.
      + rewrite Hret, take_ge by lia. reflexivity.
      + lia.
      + rewrite Hcur. replace j with (length l) by lia. exact Hterm.
    - destruct (lookup_lt_is_Some_2 l j ltac:(lia)) as [thunk Ht].
      destruct (Hl j thunk Ht) as [Hread Hacc]. rewrite <- Hcur in Hread, Hacc.
      destruct (tableBody_accepted w pe rva maxLen st thunk) as
        (st' & -> & Hcur' & Hret' & Hcount'); auto.
      + rewrite wrap32_small; nia.
      + lia.
      + apply (IH (S j)); try lia.
        * rewrite Hcur', Hcur, wrap32_small; nia.
        * now rewrite Hret', Hret, (take_S_r _ _ _ Ht). }
  apply (Inv (length l) 0%nat); cbn [tableInit curRVA repeatedAddress retVal];
    try reflexivity; lia.
Qed.

End ReaderComplete.

(** ** The imports the resolver returns *)

Section ResolverResults.

Context {C : Container}.

Lemma land_0xffff_range x : 0 <= Z.land x 0xffff <= 0xffff.
Proof.
  change 0xffff with (Z.ones 16) at 1 2. rewrite Z.land_ones by lia.
  pose proof (Z.mod_pos_bound x (2 ^ 16)). lia.
Qed.

(** The import decoded from a thunk, before the checks of the loop. *)
Lemma decodeThunk_shape w pe thunk imp :
  decodeThunk w pe thunk = Ok imp ->
  Address imp = 0 /\ Bound imp = 0 /\
  ((ByOrdinal imp = true /\ fnName imp = EmptyString /\
    0 <= Ordinal imp <= 0xffff /\ Hint imp = 0 /\ Offset imp = 0) \/
   (ByOrdinal imp = false /\ Ordinal imp = 0 /\
    (fnName imp = invalidName \/ IsValidFunctionName (fnName imp) = true)) \/
   imp = emptyImportFunction).
Proof.
  unfold decodeThunk. destruct (0 <? thunk).
  - destruct (0 <? Z.land thunk (imageOrdinalFlag w)).
    + intros [= <-]. cbn. repeat split; auto. left.
      pose proof (land_0xffff_range (wrap32 thunk)). repeat split; auto; lia.
    + destruct (getData pe _ 2) as [bytes|]; [|discriminate].
      destruct (leUint16 bytes) as [hint|e| |]; try discriminate.
      cbn [mbind outcome_bind]. intros [= <-]. cbn. repeat split; auto.
      right. left. repeat split; auto.
      destruct (IsValidFunctionName _) eqn:V; auto.
  - intros [= <-]. cbn. auto.
Qed.

Lemma setAddresses_fields w pe importDesc ilt iat i imp imp' :
  setAddresses w pe importDesc ilt iat i imp = Ok imp' ->
  fnName imp' = fnName imp /\ Hint imp' = Hint imp /\ Offset imp' = Offset imp /\
  ByOrdinal imp' = ByOrdinal imp /\ Ordinal imp' = Ordinal imp /\
  Address imp' = wrap32 (FirstThunk importDesc + ImageBase pe + i * thunkSize w) /\
  (Bound imp' = Bound imp \/
   exists l a, index ilt i = Ok l /\ index iat i = Ok a /\ l <> a /\
               Bound imp' = wrap32 a).
Proof.
  unfold setAddresses. destruct (_ && _).
  - destruct (index ilt i) as [l|e| |] eqn:L; try discriminate.
    destruct (index iat i) as [a|e| |] eqn:A; try discriminate.
    cbn [mbind outcome_bind]. intros [= <-]. cbn. repeat split; auto.
    destruct (Z.eqb_spec l a); [auto|]. right. exists l, a. auto.
  - intros [= <-]. cbn. repeat split; auto.
Qed.

(** What a pass of the resolver loop that goes on has done. *)
Lemma resolveBody_next_inv w pe importDesc ilt iat table st st' :
  resolveBody w pe importDesc ilt iat table st = Next st' ->
  exists imp,
    resolveEntry w pe importDesc ilt iat table (idx st) = Ok imp /\
    (Ordinal imp <> 0 \/ fnName imp <> EmptyString) /\
    idx st' = wrap32 (idx st + 1) /\
    importedFunctions st' =
      importedFunctions st ++
      (if isInvalid imp then []
       else if (0 <? Ordinal imp) || negb (String.eqb (fnName imp) EmptyString)
            then [imp] else []).
Proof.
  unfold resolveBody.
  destruct (resolveEntry w pe importDesc ilt iat table (idx st)) as [imp|e| |];
    try discriminate.
  fold (isInvalid imp). intros H. exists imp. revert H.
  destruct (Z.eqb_spec (Ordinal imp) 0) as [Ho|Ho];
    destruct (String.eqb_spec (fnName imp) EmptyString) as [Hn|Hn];
    cbn [negb andb]; try discriminate.
  all: destruct (isInvalid imp);
    [destruct (_ && _); [discriminate|]|destruct (_ || _)].
  all: intros [= <-]; cbn [idx importedFunctions];
    rewrite ?app_nil_r; repeat split; auto.
Qed.

Lemma resolveBody_done w pe importDesc ilt iat table st fns :
  resolveBody w pe importDesc ilt iat table st <> Done (Ok fns).
Proof.
  unfold resolveBody.
  destruct (resolveEntry w pe importDesc ilt iat table (idx st)); try discriminate.
  repeat match goal with |- context [if ?b then _ else _] => destruct b end;
    discriminate.
Qed.

Lemma resolveEntry_shape w pe importDesc ilt iat table i imp :
  resolveEntry w pe importDesc ilt iat table i = Ok imp ->
  Address imp = wrap32 (FirstThunk importDesc + ImageBase pe + i * thunkSize w) /\
  (Bound imp = 0 \/
   exists l a, index ilt i = Ok l /\ index iat i = Ok a /\ l <> a /\
               Bound imp = wrap32 a) /\
  ((ByOrdinal imp = true /\ fnName imp = EmptyString /\
    0 <= Ordinal imp <= 0xffff /\ Hint imp = 0 /\ Offset imp = 0) \/
   (ByOrdinal imp = false /\ Ordinal imp = 0 /\
    (fnName imp = invalidName \/ IsValidFunctionName (fnName imp) = true)) \/
   (Ordinal imp = 0 /\ fnName imp = EmptyString)).
Proof.
  unfold resolveEntry.
  destruct (index table i) as [thunk|e| |]; try discriminate.
  cbn [mbind outcome_bind].
  destruct (decodeThunk w pe thunk) as [imp0|e| |] eqn:D; try discriminate.
  cbn [mbind outcome_bind]. intros HS.
  apply decodeThunk_shape in D as (_ & Hb & Hshape).
  apply setAddresses_fields in HS as (Hn & Hh & Hoff & Hby & Ho & Ha & HB).
  rewrite Hb in HB. rewrite Hn, Hh, Hoff, Hby, Ho. repeat split; auto.
  destruct Hshape as [H|[H|E]]; auto.
  subst imp0. auto.
Qed.

(** The loop, seen from a result: every import returned was built from
    an entry of the table of record, is not marked invalid and has an
    ordinal or a name. *)
Lemma resolveLoop_outputs w pe importDesc ilt iat table n : forall st fns,
  0 <= idx st -> idx st + Z.of_nat n < 2 ^ 32 ->
  resolveLoop w pe importDesc ilt iat table n st = Ok fns ->
  forall imp, imp ∈ fns ->
    imp ∈ importedFunctions st \/
    exists i, idx st <= i < idx st + Z.of_nat n /\
      resolveEntry w pe importDesc ilt iat table i = Ok imp /\
      isInvalid imp = false /\
      (0 < Ordinal imp \/ fnName imp <> EmptyString).
Proof.
  induction n as [|n IH]; intros st fns H0 Hn; cbn [resolveLoop].
  - intros [= <-]. auto.
  - destruct (resolveBody w pe importDesc ilt iat table st) as [st'|r] eqn:B.
    + apply resolveBody_next_inv in B as (imp0 & He & Hv & Hi & Hf).
      rewrite wrap32_small in Hi by lia.
      intros R imp Himp.
      destruct (IH st' fns ltac:(lia) ltac:(lia) R imp Himp) as [Hin|(i & Hr & H)].
      * rewrite Hf in Hin. apply elem_of_app in Hin as [Hin|Hin]; [auto|].
        right. exists (idx st).
        destruct (isInvalid imp0) eqn:Inv; [now apply elem_of_nil in Hin|].
        destruct (Z.ltb_spec 0 (Ordinal imp0)) as [Ho|Ho];
          destruct (String.eqb_spec (fnName imp0) EmptyString) as [Hne|Hne];
          cbn [orb negb] in Hin;
          try (now apply elem_of_nil in Hin);
          apply list_elem_of_singleton in Hin as ->;
          (split; [lia|]); auto.
      * right. exists i. split; [lia|exact H].
    + intros ->. now apply resolveBody_done in B.
Qed.

Lemma resolveTables_outputs w pe importDesc ilt iat fns :
  resolveTables w pe importDesc ilt iat = Ok fns ->
  forall imp, imp ∈ fns ->
    exists i, 0 <= i < Z.of_nat (length (tableOfRecord ilt iat)) /\
      resolveEntry w pe importDesc ilt iat (tableOfRecord ilt iat) i = Ok imp /\
      isInvalid imp = false /\
      (0 < Ordinal imp \/ fnName imp <> EmptyString).
Proof.
  unfold resolveTables, tableOfRecord.
  destruct (_ && _); [discriminate|].
  assert (forall table,
    resolveLoop w pe importDesc ilt iat table
      (Z.to_nat (wrap32 (Z.of_nat (length table))))
      {| idx := 0; numInvalid := 0; importedFunctions := [] |} = Ok fns ->
    forall imp, imp ∈ fns ->
    exists i, 0 <= i < Z.of_nat (length table) /\
      resolveEntry w pe importDesc ilt iat table i = Ok imp /\
      isInvalid imp = false /\ (0 < Ordinal imp \/ fnName imp <> EmptyString)) as L.
  { intros table R imp Himp.
    pose proof (Z.mod_pos_bound (Z.of_nat (length table)) (2 ^ 32) ltac:(lia)) as Hw.
    fold (wrap32 (Z.of_nat (length table))) in Hw.
    assert (wrap32 (Z.of_nat (length table)) <= Z.of_nat (length table)) as Hle
      by (apply Z.mod_le; lia).
    pose proof (resolveLoop_outputs w pe importDesc ilt iat table
                  (Z.to_nat (wrap32 (Z.of_nat (length table))))
                  {| idx := 0; numInvalid := 0; importedFunctions := [] |} fns) as O.
    cbn [idx importedFunctions] in O. rewrite Z2Nat.id in O by lia.
    destruct (O ltac:(lia) ltac:(lia) R imp Himp) as [Hin|(i & Hi & H)].
    - now apply elem_of_nil in Hin.
    - exists i. split; [lia|exact H]. }
  destruct (0 <? length ilt)%nat; [apply L|].
  destruct (0 <? length iat)%nat; [apply L|].
  intros [= <-] imp Himp. now apply elem_of_nil in Himp.
Qed.

(** An import built from an entry that is kept by the loop. *)
Lemma kept_entry_is_well_formed w pe importDesc ilt iat table i imp :
  resolveEntry w pe importDesc ilt iat table i = Ok imp ->
  isInvalid imp = false ->
  0 < Ordinal imp \/ fnName imp <> EmptyString ->
  wellFormed imp.
Proof.
  intros He Hinv Hv.
  apply resolveEntry_shape in He as (_ & _ & Hshape).
  unfold isInvalid in Hinv. apply String.eqb_neq in Hinv.
  unfold wellFormed.
  destruct Hshape as [(Hb & Hn & Ho & Hh & Hoff)|[(Hb & Ho & Hname)|(Ho & Hn)]].
  - left. repeat split; auto; try lia. destruct Hv as [Hv|Hv]; [lia|congruence].
  - right. destruct Hv as [Hv|Hv]; [lia|].
    destruct Hname as [Hname|Hname]; [congruence|]. auto.
  - destruct Hv as [Hv|Hv]; [lia|congruence].
Qed.

(** X5: every import the resolver returns is by ordinal, with an ordinal
    between 1 and 0xFFFF and no name, or by name, with a name that passed
    the validity check and is not the sentinel, and no ordinal. *)
Theorem resolver_returns_well_formed_imports w pe importDesc ilt iat fns :
  resolveTables w pe importDesc ilt iat = Ok fns ->
  forall imp, imp ∈ fns -> wellFormed imp.
Proof.
  intros R imp Himp.
  destruct (resolveTables_outputs _ _ _ _ _ _ R imp Himp) as (i & _ & He & Hinv & Hv).
  apply (kept_entry_is_well_formed w pe importDesc ilt iat
           (tableOfRecord ilt iat) i imp He Hinv Hv).
Qed.

(** X6: the address fields of an import that the resolver returns.  Its
    address is that of a slot of the address table: [FirstThunk +
    ImageBase + i * width] for an index [i] of the table of record; its
    bound address is 0, or the entry of the address table at [i] when
    both tables have an entry at [i] and the two differ. *)
Theorem resolver_address_fields w pe importDesc ilt iat fns :
  resolveTables w pe importDesc ilt iat = Ok fns ->
  forall imp, imp ∈ fns ->
  exists i, 0 <= i < Z.of_nat (length (tableOfRecord ilt iat)) /\
    Address imp = wrap32 (FirstThunk importDesc + ImageBase pe + i * thunkSize w) /\
    (Bound imp = 0 \/
     exists l a, ilt !! Z.to_nat i = Some l /\ iat !! Z.to_nat i = Some a /\
                 l <> a /\ Bound imp = wrap32 a).
Proof.
  intros R imp Himp.
  destruct (resolveTables_outputs _ _ _ _ _ _ R imp Himp) as (i & Hi & He & _).
  apply resolveEntry_shape in He as (Ha & Hb & _).
  exists i. repeat split; auto; try lia.
  destruct Hb as [Hb|(l & a & Hl & Hia & Hne & Hb)]; [auto|].
  right. exists l, a. unfold index in Hl, Hia.
  destruct (ilt !! Z.to_nat i); [|discriminate].
  destruct (iat !! Z.to_nat i); [|discriminate].
  injection Hl as ->. injection Hia as ->. auto.
Qed.

End ResolverResults.

Section ResolverSuccess.

Context {C : Container}.

Lemma resolveLoop_ok w pe importDesc ilt iat table n : forall st fns,
  0 <= idx st -> idx st + Z.of_nat n < 2 ^ 32 ->
  resolveLoop w pe importDesc ilt iat table n st = Ok fns ->
  exists imps,
    length imps = n /\
    (forall j imp, imps !! j = Some imp ->
       resolveEntry w pe importDesc ilt iat table (idx st + Z.of_nat j) = Ok imp /\
       (0 < Ordinal imp \/ fnName imp <> EmptyString)) /\
    fns = importedFunctions st ++ List.filter (fun imp => negb (isInvalid imp)) imps.
Proof.
  induction n as [|n IH]; intros st fns H0 Hn; cbn [resolveLoop].
  - intros [= <-]. exists []. rewrite app_nil_r. repeat split; auto;
      discriminate.
  - destruct (resolveBody w pe importDesc ilt iat table st) as [st'|r] eqn:B;
      [|intros ->; now apply resolveBody_done in B].
    apply resolveBody_next_inv in B as (imp0 & He & Hv & Hi & Hf).
    rewrite wrap32_small in Hi by lia. intros R.
    destruct (IH st' fns ltac:(lia) ltac:(lia) R) as (imps & Hlen & Hentries & ->).
    assert (0 < Ordinal imp0 \/ fnName imp0 <> EmptyString) as Hv'.
    { destruct Hv as [Hv|Hv]; [|auto].
      apply resolveEntry_shape in He as (_ & _ & [H|[H|H]]); left; lia. }
    exists (imp0 :: imps). split; [cbn; lia|]. split.
    + intros j imp Hj. destruct j as [|j].
      * injection Hj as <-. rewrite Z.add_0_r. auto.
      * destruct (Hentries j imp Hj) as [E V]. split; [|exact V].
        rewrite <- E. f_equal. lia.
    + rewrite Hf, <- app_assoc. f_equal. cbn [List.filter].
      destruct (isInvalid imp0); cbn [negb]; [reflexivity|].
      assert ((0 <? Ordinal imp0) || negb (String.eqb (fnName imp0) EmptyString) = true)
        as ->; [|reflexivity].
      destruct Hv' as [Hv'|Hv'].
      * apply Z.ltb_lt in Hv'. now rewrite Hv'.
      * apply String.eqb_neq in Hv'. rewrite Hv'. apply orb_true_r.
Qed.

(** X7: when the resolver returns, every entry of the table of record
    was decoded without error to an import that has an ordinal or a
    name, and the result is exactly the imports not marked invalid, in
    table order. *)
Theorem resolver_returns_the_valid_entries w pe importDesc ilt iat fns :
  Z.of_nat (length (tableOfRecord ilt iat)) < 2 ^ 32 ->
  resolveTables w pe importDesc ilt iat = Ok fns ->
  exists imps,
    length imps = length (tableOfRecord ilt iat) /\
    (forall i imp, imps !! i = Some imp ->
       resolveEntry w pe importDesc ilt iat (tableOfRecord ilt iat) (Z.of_nat i)
         = Ok imp /\
       (0 < Ordinal imp \/ fnName imp <> EmptyString)) /\
    fns = List.filter (fun imp => negb (isInvalid imp)) imps.
Proof.
  unfold resolveTables, tableOfRecord.
  destruct (Nat.eqb_spec (length iat) 0) as [Ha|Ha];
    destruct (Nat.eqb_spec (length ilt) 0) as [Hl|Hl];
    cbn [andb]; try discriminate.
  all: destruct (Nat.ltb_spec 0 (length ilt)); try lia.
  all: try (destruct (Nat.ltb_spec 0 (length iat)); try lia).
  all: intros Hlen R; rewrite wrap32_small, Nat2Z.id in R by lia;
    apply resolveLoop_ok in R as (imps & H1 & H2 & H3);
    cbn [idx importedFunctions] in *; try lia;
    exists imps; split; [exact H1|]; split; [|exact H3];
    intros i imp Hi; exact (H2 i imp Hi).
Qed.

(** X8: when the lookup table and the address table both start with a
    zero entry, both are read as empty and the parse of the module fails
    with the damaged-table error. *)
Theorem two_empty_tables_are_damaged w k pe importDesc maxLen :
  readThunk w pe (OriginalFirstThunk importDesc) = Ok 0 ->
  readThunk w pe (FirstThunk importDesc) = Ok 0 ->
  parseImports w (S k) pe importDesc maxLen = Err ErrDamaged.
Proof.
  intros Hl Ha.
  assert (forall rva, readThunk w pe rva = Ok 0 ->
            getImportTable w (S k) pe rva maxLen = Ok []) as E.
  { intros rva H. unfold getImportTable. cbn [tableLoop].
    rewrite tableBody_terminator; auto. reflexivity. }
  unfold parseImports. rewrite (E _ Hl). cbn [mbind outcome_bind].
  rewrite (E _ Ha). reflexivity.
Qed.

End ResolverSuccess.

(** ** The modules the walk collects *)

Section WalkerResults.

Context {C : Container}.

Lemma parseImports_ok_inv w fuel pe importDesc maxLen fns :
  parseImports w fuel pe importDesc maxLen = Ok fns ->
  exists ilt iat, resolveTables w pe importDesc ilt iat = Ok fns.
Proof.
  unfold parseImports.
  destruct (getImportTable w fuel pe (OriginalFirstThunk importDesc) maxLen)
    as [ilt|e| |]; try discriminate.
  cbn [mbind outcome_bind].
  destruct (getImportTable w fuel pe (FirstThunk importDesc) maxLen)
    as [iat|e| |]; try discriminate.
  cbn [mbind outcome_bind]. eauto.
Qed.

Lemma walkBody_next_inv fuel pe size st st' :
  walkBody fuel pe size st = Next st' ->
  exists importDesc fns,
    readDescriptor pe (cursor st) size = Ok importDesc /\
    isZeroDescriptor importDesc = false /\
    (forall imp, imp ∈ fns -> wellFormed imp) /\
    cursor st' = wrap32 (cursor st + descriptorSize) /\
    Imports st' = addModule pe (offsetOf pe (cursor st)) importDesc fns (Imports st).
Proof.
  unfold walkBody.
  destruct (readDescriptor pe (cursor st) size) as [d|e| |]; try discriminate.
  destruct (isZeroDescriptor d) eqn:Z0; [discriminate|].
  destruct (Is64 pe);
    match goal with |- context [match ?p with _ => _ end] =>
      destruct p as [fns|e| |] eqn:P end; try discriminate.
  all: apply parseImports_ok_inv in P as (ilt & iat & R).
  all: intros H; exists d, fns; repeat split; auto;
    try (intros imp Himp;
         destruct (resolveTables_outputs _ _ _ _ _ _ R imp Himp)
           as (i & _ & He & Hinv & Hv);
         exact (kept_entry_is_well_formed _ _ _ _ _ _ _ _ He Hinv Hv)).
  all: unfold addModule; destruct (IsValidDosFilename _); injection H as <-;
    reflexivity.
Qed.

(** X9: the walk only appends to the list of imports, also when it ends
    in an error.  Every module it appends carries a descriptor that was
    read at a cursor of the walk and is not the null descriptor, the file
    offset of that cursor, a name that is the string at the name RVA of
    the descriptor and passed the file-name check, and well-formed
    functions. *)
Theorem walker_only_appends_valid_modules fuel pe imports rva size :
  exists added,
    fst (parseImportDirectory fuel pe imports rva size) = imports ++ added /\
    forall m, m ∈ added ->
      IsValidDosFilename (impName m) = true /\
      impName m = getStringAtRVA pe (Name (Descriptor m)) /\
      isZeroDescriptor (Descriptor m) = false /\
      (exists k, readDescriptor pe (nthCursor rva k) size = Ok (Descriptor m) /\
                 impOffset m = offsetOf pe (nthCursor rva k)) /\
      (forall imp, imp ∈ Functions m -> wellFormed imp).
Proof.
  unfold parseImportDirectory. generalize fuel at 2. intros n.
  assert (forall k st, cursor st = nthCursor rva k ->
    exists added,
      fst (walkLoop fuel pe size n st) = Imports st ++ added /\
      forall m, m ∈ added ->
        IsValidDosFilename (impName m) = true /\
        impName m = getStringAtRVA pe (Name (Descriptor m)) /\
        isZeroDescriptor (Descriptor m) = false /\
        (exists k, readDescriptor pe (nthCursor rva k) size = Ok (Descriptor m) /\
                   impOffset m = offsetOf pe (nthCursor rva k)) /\
        (forall imp, imp ∈ Functions m -> wellFormed imp)) as Inv.
  { induction n as [|n IH]; intros k st Hc; cbn [walkLoop].
    - exists []. rewrite app_nil_r. split; [reflexivity|].
      intros m Hm. now apply elem_of_nil in Hm.
    - destruct (walkBody fuel pe size st) as [st'|r] eqn:B.
      + apply walkBody_next_inv in B as (d & fns & Hread & Hz & Hwf & Hc' & Himp).
        destruct (IH (S k) st') as (added & Hfst & Hadded).
        { rewrite Hc', Hc. reflexivity. }
        rewrite Hfst, Himp. unfold addModule.
        destruct (IsValidDosFilename (getStringAtRVA pe (Name d))) eqn:V.
        * eexists (_ :: added). rewrite <- app_assoc. split; [reflexivity|].
          intros m Hm. apply elem_of_cons in Hm as [->|Hm]; [|auto].
          cbn [impName Descriptor impOffset Functions].
          repeat split; auto. exists k. rewrite <- Hc. auto.
        * exists added. auto.
      + exists []. rewrite app_nil_r. split; [reflexivity|].
        intros m Hm. now apply elem_of_nil in Hm. }
  apply (Inv 0%nat). reflexivity.
Qed.

End WalkerResults.


(** ** Reads inside the file *)

Section ReadsInside.

Context {C : Container}.

Lemma byteZ_range b : 0 <= byteZ b < 256.
Proof.
  unfold byteZ. pose proof (Byte.to_N_bounded b). lia.
Qed.

Lemma leUint_range bs : 0 <= leUint bs < 256 ^ Z.of_nat (length bs).
Proof.
  induction bs as [|b bs IH]; [cbn; lia|].
  cbn [leUint length]. rewrite Nat2Z.inj_succ, Z.pow_succ_r by lia.
  pose proof (byteZ_range b). lia.
Qed.

Lemma goSlice_some a lo hi buf :
  goSlice a lo hi = Some buf ->
  0 <= lo <= hi /\ hi <= Z.of_nat (length a) /\
  buf = firstn (Z.to_nat (hi - lo)) (skipn (Z.to_nat lo) a).
Proof.
  unfold goSlice.
  destruct (Z.leb_spec 0 lo), (Z.leb_spec lo hi),
    (Z.leb_spec hi (Z.of_nat (length a))); cbn [andb]; try discriminate.
  intros [= <-]. auto.
Qed.

(** X14: a thunk is only ever decoded from bytes inside the file: when
    the read of a thunk returns a value, the [width] bytes at the file
    offset of the RVA lie within the buffer, the value is their
    little-endian number, and it fits the width. *)
Theorem thunk_reads_stay_inside_the_file w pe rva thunk :
  readThunk w pe rva = Ok thunk ->
  offsetOf pe rva + thunkSize w <= Z.of_nat (length (data pe)) /\
  thunk = leUint (firstn (Z.to_nat (thunkSize w))
                    (skipn (Z.to_nat (offsetOf pe rva)) (data pe))) /\
  0 <= thunk < 2 ^ (8 * thunkSize w).
Proof.
  unfold readThunk.
  destruct (goSlice _ _ _) as [buf|] eqn:G; [|discriminate].
  pose proof (goSlice_length _ _ _ _ G) as L.
  apply goSlice_some in G as (Hlo & Hhi & ->).
  pose proof (offsetOf_range pe rva) as R.
  assert (0 < thunkSize w <= 8) as Hw by (destruct w; cbn; lia).
  assert (wrap32 (offsetOf pe rva + thunkSize w) = offsetOf pe rva + thunkSize w) as E.
  { unfold wrap32 in *.
    destruct (Z.lt_ge_cases (offsetOf pe rva + thunkSize w) (2 ^ 32)).
    - apply Z.mod_small. lia.
    - exfalso. revert Hlo.
      replace (offsetOf pe rva + thunkSize w)
        with ((offsetOf pe rva + thunkSize w - 2 ^ 32) + 1 * 2 ^ 32) by lia.
      rewrite Z.mod_add by lia. rewrite Z.mod_small; lia. }
  rewrite E in *.
  replace (offsetOf pe rva + thunkSize w - offsetOf pe rva) with (thunkSize w) in * by lia.
  unfold binaryRead.
  match goal with |- context [(?a <? ?b)%nat] =>
    destruct (Nat.ltb_spec a b) as [Hlt|Hge] end; [discriminate|].
  intros [= <-]. rewrite firstn_firstn, Nat.min_id.
  repeat split; try lia.
  - apply leUint_range.
  - pose proof (leUint_range (firstn (Z.to_nat (thunkSize w))
                   (skipn (Z.to_nat (offsetOf pe rva)) (data pe)))) as [_ Hr].
    replace (256 ^ Z.of_nat (length (firstn (Z.to_nat (thunkSize w))
               (skipn (Z.to_nat (offsetOf pe rva)) (data pe)))))
      with (2 ^ (8 * thunkSize w)) in Hr; [exact Hr|].
    replace (Z.of_nat (length (firstn (Z.to_nat (thunkSize w))
               (skipn (Z.to_nat (offsetOf pe rva)) (data pe)))))
      with (thunkSize w) by lia.
    change 256 with (2 ^ 8). rewrite <- Z.pow_mul_r by lia. reflexivity.
Qed.

(** X15: a descriptor is only ever decoded from bytes inside the file:
    when the read of a descriptor returns one, the slice of [size] bytes
    lies within the buffer and holds the 20 bytes of a descriptor, and
    the five fields are the little-endian 32-bit numbers found there. *)
Theorem descriptor_reads_stay_inside_the_file pe rva size importDesc :
  readDescriptor pe rva size = Ok importDesc ->
  inBounds pe (offsetOf pe rva) size /\
  offsetOf pe rva + descriptorSize <= Z.of_nat (length (data pe)) /\
  importDesc = decodeDescriptor
                 (firstn 20 (skipn (Z.to_nat (offsetOf pe rva)) (data pe))) /\
  0 <= OriginalFirstThunk importDesc < 2 ^ 32 /\
  0 <= TimeDateStamp importDesc < 2 ^ 32 /\
  0 <= ForwarderChain importDesc < 2 ^ 32 /\
  0 <= Name importDesc < 2 ^ 32 /\
  0 <= FirstThunk importDesc < 2 ^ 32.
Proof.
  unfold readDescriptor, inBounds.
  destruct (goSlice _ _ _) as [buf|] eqn:G; [|discriminate].
  pose proof (goSlice_length _ _ _ _ G) as L.
  apply goSlice_some in G as (Hlo & Hhi & ->).
  unfold binaryRead, descriptorSize.
  match goal with |- context [(?a <? ?b)%nat] =>
    destruct (Nat.ltb_spec a b) as [Hlt|Hge] end;
    [destruct (firstn _ _); discriminate|].
  intros [= <-]. rewrite firstn_firstn.
  replace (Init.Nat.min (Z.to_nat 20)
             (Z.to_nat (wrap32 (offsetOf pe rva + size) - offsetOf pe rva)))
    with 20%nat by lia.
  split; [lia|]. split; [lia|]. split; [reflexivity|].
  assert (forall bs : list byte, 0 <= leUint (firstn 4 bs) < 2 ^ 32) as Hfld.
  { intros bs. pose proof (leUint_range (firstn 4 bs)) as [H0 H1].
    split; [exact H0|]. eapply Z.lt_le_trans; [exact H1|].
    change (2 ^ 32) with (256 ^ 4). apply Z.pow_le_mono_r; [lia|].
    rewrite length_firstn. lia. }
  cbn [decodeDescriptor OriginalFirstThunk TimeDateStamp ForwarderChain Name FirstThunk].
  repeat split; apply Hfld.
Qed.

End ReadsInside.

Lemma thunk_reads_stay_inside_the_file_witness :
  offsetOf (C := flat) spreadTable32 4 + thunkSize PE32
    <= Z.of_nat (length (data spreadTable32)) /\
  0x20000000 = leUint (firstn (Z.to_nat (thunkSize PE32))
                         (skipn (Z.to_nat (offsetOf (C := flat) spreadTable32 4))
                            (data spreadTable32))) /\
  0 <= 0x20000000 < 2 ^ (8 * thunkSize PE32).
Proof.
  apply (thunk_reads_stay_inside_the_file (C := flat) PE32 spreadTable32 4 0x20000000).
  reflexivity.
Defined.

Lemma descriptor_reads_stay_inside_the_file_witness :
  inBounds twoModules (offsetOf (C := flat) twoModules 0x14) 20 /\
  offsetOf (C := flat) twoModules 0x14 + descriptorSize
    <= Z.of_nat (length (data twoModules)) /\
  Descriptor moduleB =
    decodeDescriptor
      (firstn 20 (skipn (Z.to_nat (offsetOf (C := flat) twoModules 0x14))
                    (data twoModules))) /\
  0 <= OriginalFirstThunk (Descriptor moduleB) < 2 ^ 32 /\
  0 <= TimeDateStamp (Descriptor moduleB) < 2 ^ 32 /\
  0 <= ForwarderChain (Descriptor moduleB) < 2 ^ 32 /\
  0 <= Name (Descriptor moduleB) < 2 ^ 32 /\
  0 <= FirstThunk (Descriptor moduleB) < 2 ^ 32.
Proof.
  apply (descriptor_reads_stay_inside_the_file (C := flat) twoModules 0x14 20
           (Descriptor moduleB)).
  reflexivity.
Defined.

(** ** The theorems on the test images *)

Lemma reader_returns_the_thunks_read_witness :
  readThunk (C := flat) PE32 spreadTable32 (nthRVA PE32 0 1) = Ok 0x20000000 /\
  accepted PE32 0 (nthRVA PE32 0 1) 0x20000000.
Proof.
  apply (reader_returns_the_thunks_read (C := flat) PE32 3 spreadTable32 0 0x1000
           [0x10000000; 0x20000000]); reflexivity.
Defined.

Lemma reader_length_bound_witness :
  thunkSize PE32 * Z.of_nat (length [0x10000000; 0x20000000]) < 0x1000 + thunkSize PE32.
Proof.
  apply (reader_length_bound (C := flat) PE32 3 spreadTable32 0 0x1000
           [0x10000000; 0x20000000]).
  - lia.
  - lia.
  - cbn. lia.
  - reflexivity.
Defined.

Lemma reader_errors_witness :
  ErrBeyond = ErrBogusData \/ ErrBeyond = ErrBeyond.
Proof.
  apply (reader_errors (C := flat) PE32 1 (ordinalTable32 0x80010000) 0 0x1000).
  reflexivity.
Defined.

Lemma reader_returns_the_table_before_the_terminator_witness :
  getImportTable (C := flat) PE32 3 spreadTable32 0 0x1000
    = Ok [0x10000000; 0x20000000].
Proof.
  apply (reader_returns_the_table_before_the_terminator (C := flat) PE32
           spreadTable32 0 0x1000 [0x10000000; 0x20000000] 0).
  - lia.
  - lia.
  - cbn. lia.
  - cbn. unfold maxAddressSpread. lia.
  - intros i thunk H.
    destruct i as [|[|i]]; cbn in H; try discriminate; injection H as <-.
    + split; [reflexivity|]. unfold accepted. split; [lia|]. split; [cbn; lia|].
      intros H. vm_compute in H. discriminate.
    + split; [reflexivity|]. unfold accepted. split; [lia|]. split; [cbn; lia|].
      intros H. vm_compute in H. discriminate.
  - reflexivity.
Defined.

Lemma resolver_returns_well_formed_imports_witness :
  wellFormed (C := flat) (namedImport "cd" 3 0x30 0x40000c).
Proof.
  apply (resolver_returns_well_formed_imports (C := flat) PE32 interleaved
           selfDescriptor [0x20; 0x28; 0x80000005; 0x30]
           [0x20; 0x28; 0x80000005; 0x30]
           [ namedImport "ab" 1 0x20 0x400000;
             ordinalImport 5 0x400008;
             namedImport "cd" 3 0x30 0x40000c ]).
  - vm_compute. reflexivity.
  - do 2 apply list_elem_of_further. apply list_elem_of_here.
Defined.

Lemma resolver_address_fields_witness :
  exists i, 0 <= i < Z.of_nat (length (tableOfRecord [0x80000001; 0x80000002]
                                         [0x80000001; 0x77001234])) /\
    Address {| fnName := EmptyString; Hint := 0; Offset := 0; ByOrdinal := true;
               Ordinal := 2; Address := 0x400004; Bound := 0x77001234 |} =
      wrap32 (FirstThunk selfDescriptor + ImageBase unevenTables32 + i * thunkSize PE32) /\
    (Bound {| fnName := EmptyString; Hint := 0; Offset := 0; ByOrdinal := true;
              Ordinal := 2; Address := 0x400004; Bound := 0x77001234 |} = 0 \/
     exists l a, [0x80000001; 0x80000002] !! Z.to_nat i = Some l /\
                 [0x80000001; 0x77001234] !! Z.to_nat i = Some a /\
                 l <> a /\
                 Bound {| fnName := EmptyString; Hint := 0; Offset := 0;
                          ByOrdinal := true; Ordinal := 2; Address := 0x400004;
                          Bound := 0x77001234 |} = wrap32 a).
Proof.
  apply (resolver_address_fields (C := flat) PE32 unevenTables32 selfDescriptor
           [0x80000001; 0x80000002] [0x80000001; 0x77001234]
           [ ordinalImport 1 0x400000;
             {| fnName := EmptyString; Hint := 0; Offset := 0; ByOrdinal := true;
                Ordinal := 2; Address := 0x400004; Bound := 0x77001234 |} ]).
  - vm_compute. reflexivity.
  - apply list_elem_of_further. apply list_elem_of_here.
Defined.

Lemma resolver_returns_the_valid_entries_witness :
  exists imps,
    length imps = length (tableOfRecord [0x20; 0x28; 0x80000005; 0x30]
                            [0x20; 0x28; 0x80000005; 0x30]) /\
    (forall i imp, imps !! i = Some imp ->
       resolveEntry (C := flat) PE32 interleaved selfDescriptor
         [0x20; 0x28; 0x80000005; 0x30] [0x20; 0x28; 0x80000005; 0x30]
         (tableOfRecord [0x20; 0x28; 0x80000005; 0x30]
            [0x20; 0x28; 0x80000005; 0x30]) (Z.of_nat i) = Ok imp /\
       (0 < Ordinal imp \/ fnName imp <> EmptyString)) /\
    [ namedImport "ab" 1 0x20 0x400000;
      ordinalImport 5 0x400008;
      namedImport "cd" 3 0x30 0x40000c ]
    = List.filter (fun imp => negb (isInvalid imp)) imps.
Proof.
  apply (resolver_returns_the_valid_entries (C := flat) PE32 interleaved
           selfDescriptor [0x20; 0x28; 0x80000005; 0x30]
           [0x20; 0x28; 0x80000005; 0x30]).
  - cbn. lia.
  - vm_compute. reflexivity.
Defined.

Lemma two_empty_tables_are_damaged_witness :
  parseImports (C := flat) PE32 1 nullDirectory selfDescriptor 0x1000 = Err ErrDamaged.
Proof.
  apply (two_empty_tables_are_damaged (C := flat) PE32 0 nullDirectory
           selfDescriptor 0x1000); reflexivity.
Defined.

(** ** The orchestrator *)

Module OrchestratorFacts.

Import Orchestrator.





Lemma publishAll_trace W body topics : forall tr,
  exists n,
    (n <= length topics)%nat /\
    fst (publishAll W body topics tr)
      = tr ++ map (fun t => Publish t body) (take n topics) /\
    (snd (publishAll W body topics tr) = None -> n = length topics).
Proof.
  induction topics as [|t topics IH]; intros tr; cbn [publishAll].
  - exists 0%nat. rewrite app_nil_r. auto.
  - destruct (publish W tr t body) as [e|].
    + exists 1%nat. cbn. repeat split; [lia|discriminate].
    + destruct (IH (tr ++ [Publish t body])) as (n & Hn & Hfst & Hsnd).
      exists (S n). cbn [length take map]. rewrite Hfst, <- app_assoc.
      repeat split; [lia|]. intros H. now rewrite (Hsnd H).
Qed.

(** X10: a message with a blank body is refused with an error before
    anything is done, and it is the only message for which the handler
    calls and logs nothing. *)
Theorem blank_message_is_refused W cfg body :
  (fst (HandleMessage W cfg body) = [] <-> body = EmptyString) /\
  HandleMessage W cfg EmptyString = ([], Some blankBody).
Proof.
  split; [|reflexivity].
  unfold HandleMessage, publishLogged.
  destruct (String.eqb_spec body EmptyString) as [->|Hne]; [tauto|].
  split; [|congruence].
  destruct (create W _ _); [discriminate|].
  destruct (download W _ _ _ _); [discriminate|].
  destruct (publish W _ "topic-multiav" body); [discriminate|].
  destruct (publish W _ "topic-meta" body); [discriminate|].
  destruct (detect W _ _) as [e|mtype]; [discriminate|].
  match goal with |- context [publishAll W body (routes mtype) ?tr] =>
    destruct (publishAll_trace W body (routes mtype) tr) as (n & _ & Hfst & _) end.
  rewrite Hfst. discriminate.
Qed.



(** X13: nothing is published unless the file of the sample was created
    and the sample was downloaded to it without error. *)
Theorem nothing_published_before_download W cfg body :
  published (fst (HandleMessage W cfg body)) <> [] ->
  let filePath := joinPath W (SharedVolume cfg) body in
  create W [Log StartProcessing] filePath = None /\
  download W [Log StartProcessing; Create filePath] (Bucket cfg) body filePath = None.
Proof.
  unfold HandleMessage. cbv zeta. cbn [app].
  destruct (String.eqb body EmptyString); [intros H; now elim H|].
  destruct (create W _ _); [intros H; now elim H|].
  destruct (download W _ _ _ _); [intros H; now elim H|]. auto.
Qed.


Lemma nothing_published_before_download_witness :
  create quietWorld [Log StartProcessing] "/samples/abc" = None /\
  download quietWorld [Log StartProcessing; Create "/samples/abc"]
    "saferwall" "abc" "/samples/abc" = None.
Proof.
  apply (nothing_published_before_download quietWorld sampleConfig "abc").
  discriminate.
Defined.

End OrchestratorFacts.
